(** * A3sist Python services: Analyzer.analyze_code and RefactorEngine.refactor_code

    The two services of
    [src/A3sist.Core/Agents/Language/Python/Services/Analyzer.py] and
    [.../RefactorEngine.py] are embedded over a model of the Python objects
    they handle: outcomes of calls (a value or a raised exception), the
    duck-typed nodes of the standard [ast] module, and the generic tree
    helpers of that module ([iter_child_nodes], [walk]).

    [ast.parse] and [ast.unparse] belong to the Python standard library, not to
    the repository: the services take them as parameters.  A small concrete
    parser and printer for a fragment of Python is defined further down and is
    used wherever a statement is run on a concrete source text. *)

From Stdlib Require Import List String Ascii Bool Arith ZArith Lia Permutation.
From Stdlib Require Import DecimalString.
Import ListNotations.
Set Warnings "-register-all".
Local Open Scope list_scope.
Local Open Scope string_scope.
Local Open Scope nat_scope.

(** ** Outcomes of Python calls *)

Module Py.

(** The exception classes that matter here.  [KeyboardInterrupt] and
    [SystemExit] derive from [BaseException] only; the others derive from
    [Exception].  [IndentationError] derives from [SyntaxError]. *)
Inductive exn_class : Type :=
| SyntaxError
| IndentationError
| AttributeError
| ValueError
| RecursionError
| MemoryError
| KeyboardInterrupt
| SystemExit.

(** An exception object: its class and the text [str(ex)] gives. *)
Record exn : Type := mkExn { exn_cls : exn_class; exn_str : string }.

(** [isinstance(ex, Exception)] *)
Definition is_Exception (e : exn) : bool :=
  match exn_cls e with
  | KeyboardInterrupt | SystemExit => false
  | _ => true
  end.

(** [isinstance(ex, SyntaxError)] *)
Definition is_SyntaxError (e : exn) : bool :=
  match exn_cls e with
  | SyntaxError | IndentationError => true
  | _ => false
  end.

Inductive outcome (A : Type) : Type :=
| Return (a : A)
| Raise (e : exn).
Arguments Return {A} a.
Arguments Raise {A} e.

Definition bind {A B : Type} (m : outcome A) (k : A -> outcome B) : outcome B :=
  match m with
  | Return a => k a
  | Raise e => Raise e
  end.

(** [try: body  except Exception as ex: handler ex] *)
Definition try_except_Exception {A : Type}
  (body : outcome A) (handler : exn -> outcome A) : outcome A :=
  match body with
  | Return a => Return a
  | Raise e => if is_Exception e then handler e else Raise e
  end.

(** [for x in xs: acc = body acc x], stopping at the first exception. *)
Fixpoint for_each {A S : Type} (xs : list A) (body : S -> A -> outcome S)
  (acc : S) : outcome S :=
  match xs with
  | [] => Return acc
  | x :: rest => bind (body acc x) (for_each rest body)
  end.

(** [[f x for x in xs]], stopping at the first exception. *)
Fixpoint map_outcome {A B : Type} (f : A -> outcome B) (xs : list A)
  : outcome (list B) :=
  match xs with
  | [] => Return []
  | x :: rest =>
      bind (f x) (fun y => bind (map_outcome f rest) (fun ys => Return (y :: ys)))
  end.

(** The exception the interpreter raises when a call would need more frames
    than the recursion limit leaves. *)
Definition recursion_error : exn :=
  mkExn RecursionError "maximum recursion depth exceeded".

End Py.
Import Py.

Declare Scope py_scope.
Delimit Scope py_scope with py.
Notation "x <- m ;; k" := (bind m (fun x => k))
  (at level 61, m at next level, right associativity) : py_scope.
Local Open Scope py_scope.

(** ** Python values and [ast] nodes *)

(** A node is an object of some class of the [ast] module carrying the fields
    of its class, in the order of [_fields].  A field holds a node, a list, a
    string (identifiers), [None], or a constant.  Position attributes
    ([lineno], [col_offset], ...) are not fields: [iter_fields] does not yield
    them and [ast.unparse] does not read them; the model leaves them out, so
    equality of trees is equality up to positions. *)
Inductive node : Type :=
| Node (cls : string) (fields : list (string * value))
with value : Type :=
| VNone
| VBool (b : bool)
| VInt (z : Z)
| VStr (s : string)
| VList (items : list value)
| VNode (n : node).

Definition node_cls (n : node) : string :=
  match n with Node c _ => c end.

Definition node_fields (n : node) : list (string * value) :=
  match n with Node _ fs => fs end.

(** [isinstance(n, ast.<c>)]: the node classes tested by the services
    ([FunctionDef], [Call], [Name]) have no subclass that a parser builds. *)
Definition isinstance (n : node) (c : string) : bool :=
  String.eqb (node_cls n) c.

Fixpoint lookup (name : string) (fs : list (string * value)) : option value :=
  match fs with
  | [] => None
  | (k, v) :: rest => if String.eqb k name then Some v else lookup name rest
  end.

(** [n.<name>]: raises [AttributeError] when the object has no such field. *)
Definition getattr (n : node) (name : string) : outcome value :=
  match lookup name (node_fields n) with
  | Some v => Return v
  | None =>
      Raise (mkExn AttributeError
               ("'" ++ node_cls n ++ "' object has no attribute '" ++ name ++ "'"))
  end.

(** Truth value of an object, as [not x] and [if x] test it. *)
Definition truthy (v : value) : bool :=
  match v with
  | VNone => false
  | VBool b => b
  | VInt z => negb (Z.eqb z 0)
  | VStr s => negb (String.eqb s "")
  | VList items => match items with [] => false | _ => true end
  | VNode _ => true
  end.

(** [str(v)] as an f-string field formats it.  An identifier, which is what a
    parser stores in [FunctionDef.name], is printed as it is.  The text Python
    prints for a list or a node object (which shows a memory address) is not
    modelled: a fixed text stands for it. *)
Definition py_str (v : value) : string :=
  match v with
  | VNone => "None"
  | VBool true => "True"
  | VBool false => "False"
  | VInt z => NilZero.string_of_int (Z.to_int z)
  | VStr s => s
  | VList _ => "[...]"
  | VNode n => "<ast." ++ node_cls n ++ " object>"
  end.

(** [v == 'text'] *)
Definition eq_str (v : value) (text : string) : bool :=
  match v with
  | VStr s => String.eqb s text
  | _ => false
  end.

(** [sep.join(xs)] *)
Fixpoint join (sep : string) (xs : list string) : string :=
  match xs with
  | [] => ""
  | [x] => x
  | x :: rest => x ++ sep ++ join sep rest
  end.

(** ** The tree helpers of the [ast] module *)

Module Ast.

(** The nodes among the items of a list field. *)
Definition nodes_of_items (items : list value) : list node :=
  flat_map (fun item => match item with VNode m => [m] | _ => [] end) items.

(** The nodes a field value contributes to [iter_child_nodes]. *)
Definition nodes_of_value (v : value) : list node :=
  match v with
  | VNode m => [m]
  | VList items => nodes_of_items items
  | _ => []
  end.

(** [ast.iter_child_nodes(n)]: for each field in order, the field itself when
    it is a node, its node items when it is a list. *)
Definition iter_child_nodes (n : node) : list node :=
  flat_map (fun f => nodes_of_value (snd f)) (node_fields n).

(** Number of nodes of a tree. *)
Fixpoint count_nodes (n : node) : nat :=
  match n with
  | Node _ fs =>
      S (list_sum (map (fun f => count_value (snd f)) fs))
  end
with count_value (v : value) : nat :=
  match v with
  | VNode m => count_nodes m
  | VList items =>
      list_sum (map (fun item =>
                       match item with VNode m => count_nodes m | _ => 0 end)
                  items)
  | _ => 0
  end.

(** The loop of [ast.walk]:
<<
    todo = deque([node])
    while todo:
        node = todo.popleft()
        todo.extend(iter_child_nodes(node))
        yield node
>>
    [fuel] bounds the number of nodes popped. *)
Fixpoint walk_queue (fuel : nat) (todo : list node) : list node :=
  match fuel with
  | O => []
  | S fuel' =>
      match todo with
      | [] => []
      | n :: rest => n :: walk_queue fuel' (app rest (iter_child_nodes n))
      end
  end.

(** [ast.walk(n)], as the list of the nodes it yields in order. *)
Definition walk (n : node) : list node :=
  walk_queue (count_nodes n) [n].

End Ast.
Import Ast.

(** The line feed character, and the one-character string Python writes
    as a backslash followed by n. *)
Definition LF : ascii := ascii_of_nat 10.
Definition nl : string := String LF EmptyString.

(** ** Analyzer.py *)

Section Services.

(** [ast.parse] and [ast.unparse]. *)
Variable parse : string -> outcome node.
Variable unparse : node -> outcome string.

(** The body of the loop of [analyze_code]:
<<
    if isinstance(node, ast.FunctionDef) and not node.body:
        issues.append(f"Empty function found: {node.name}")
>> *)
Definition analyze_step (issues : list string) (n : node)
  : outcome (list string) :=
  if isinstance n "FunctionDef" then
    body <- getattr n "body" ;;
    if negb (truthy body) then
      name <- getattr n "name" ;;
      Return (app issues ["Empty function found: " ++ py_str name])
    else Return issues
  else Return issues.

(** The [try] block of [analyze_code]. *)
Definition analyze_body (code : string) : outcome string :=
  tree <- parse code ;;
  issues <- for_each (walk tree) analyze_step [] ;;
  Return (match issues with
          | [] => "No issues found"
          | _ => join nl issues
          end).

Definition analyze_code (code : string) : outcome string :=
  try_except_Exception (analyze_body code)
    (fun ex => Return ("Analysis error: " ++ exn_str ex)).

(** ** RefactorEngine.py *)

(** The local variables of [refactor_code] that outlive an iteration of its
    loop: [tree], which [ast.unparse] reads after the loop, and [new_node],
    which nothing reads. *)
Record locals : Type := mkLocals { l_tree : node; l_new_node : option node }.

(** Node constructors, as the calls [ast.Load()], [ast.Name(id=, ctx=)],
    [ast.Attribute(value=, attr=, ctx=)] and [ast.Call(func=, args=,
    keywords=)] build them. *)
Definition Load : node := Node "Load" [].

Definition Name (id : string) (ctx : node) : node :=
  Node "Name" [("id", VStr id); ("ctx", VNode ctx)].

Definition Attribute (value : node) (attr : string) (ctx : node) : node :=
  Node "Attribute" [("value", VNode value); ("attr", VStr attr); ("ctx", VNode ctx)].

Definition Call (func : node) (args : value) (keywords : value) : node :=
  Node "Call" [("func", VNode func); ("args", args); ("keywords", keywords)].

(** The number of Python frames the recursion limit leaves to a call made
    from the body of [refactor_code]: [sys.getrecursionlimit()] less the
    frames in use when the service runs. *)
Variable frames : nat.

(** [ast.copy_location(new, old)] assigns position attributes only, which
    the model does not carry, and returns [new]. *)
Definition copy_location (new_node old_node : node) : node := new_node.

(** [ast.fix_missing_locations(n)]: its inner function [_fix] sets the
    position attributes a node lacks and calls itself on each child node, so
    it takes one frame for each level of the tree.  The positions are not
    modelled; the recursion is: the call raises [RecursionError] when the
    tree is deeper than [limit] frames allow.  It returns its argument. *)
Fixpoint _fix (limit : nat) (n : node) : outcome unit :=
  match limit with
  | O => Raise recursion_error
  | S limit' =>
      for_each (iter_child_nodes n) (fun _ child => _fix limit' child) tt
  end.

Definition fix_missing_locations (limit : nat) (n : node) : outcome node :=
  match limit with
  | O => Raise recursion_error
  | S limit' => _ <- _fix limit' n ;; Return n
  end.

(** [ast.NodeTransformer().visit(n)]: the base class has no [visit_<Class>]
    method, so [visit] hands every node to [generic_visit], which visits each
    child node and stores the result back where the child was (a list field is
    refilled with its visited items, a node field is set to the visited node),
    and returns the node.  [visit] and [generic_visit] take a frame each for
    every level of the tree; the call raises [RecursionError] when the tree
    is deeper than [limit] frames allow. *)
Definition visit_item (visit : node -> outcome node) (item : value)
  : outcome value :=
  match item with
  | VNode m => m' <- visit m ;; Return (VNode m')
  | other => Return other
  end.

Definition visit_field (visit : node -> outcome node) (v : value)
  : outcome value :=
  match v with
  | VNode m => m' <- visit m ;; Return (VNode m')
  | VList items =>
      items' <- map_outcome (visit_item visit) items ;; Return (VList items')
  | other => Return other
  end.

Definition generic_visit (visit : node -> outcome node) (n : node)
  : outcome node :=
  fields <- map_outcome
              (fun f => v <- visit_field visit (snd f) ;; Return (fst f, v))
              (node_fields n) ;;
  Return (Node (node_cls n) fields).

Fixpoint NodeTransformer_visit (limit : nat) (n : node) : outcome node :=
  match limit with
  | S (S limit') => generic_visit (NodeTransformer_visit limit') n
  | _ => Raise recursion_error
  end.

(** The test of the loop of [refactor_code]:
<<
    isinstance(node, ast.Call) and isinstance(node.func, ast.Name)
      and node.func.id == 'print'
>> *)
Definition is_print_call (n : node) : outcome bool :=
  if isinstance n "Call" then
    func <- getattr n "func" ;;
    match func with
    | VNode f =>
        if isinstance f "Name" then
          id <- getattr f "id" ;;
          Return (eq_str id "print")
        else Return false
    | _ => Return false
    end
  else Return false.

(** The node the loop builds for a matching call. *)
Definition logging_info_call (args : value) : node :=
  Call (Attribute (Name "logging" Load) "info" Load) args (VList []).

(** The body of the loop of [refactor_code].  The node it builds is bound to
    the local [new_node]; no statement stores it in an object of the tree.
    The only objects of the tree reachable from [new_node] are those of
    [node.args], and the visit of line 32 stores each of them back where it
    was, so [tree] is the same tree after the iteration.  Lines 31 and 32
    recurse over the new node and raise [RecursionError] when it is too
    deep. *)
Definition refactor_step (st : locals) (n : node) : outcome locals :=
  hit <- is_print_call n ;;
  if (hit : bool) then
    args <- getattr n "args" ;;
    let new_node := logging_info_call args in
    let new_node := copy_location new_node n in
    new_node <- fix_missing_locations frames new_node ;;
    new_node <- NodeTransformer_visit frames new_node ;;
    Return (mkLocals (l_tree st) (Some new_node))
  else Return st.

(** The [try] block of [refactor_code]. *)
Definition refactor_body (code : string) : outcome string :=
  tree <- parse code ;;
  st <- for_each (walk tree) refactor_step (mkLocals tree None) ;;
  unparse (l_tree st).

Definition refactor_code (code : string) : outcome string :=
  try_except_Exception (refactor_body code)
    (fun ex => Return ("Refactoring error: " ++ exn_str ex)).

End Services.

(** ** Traversal orders, for comparison with [walk] *)

(** Document order: a node, then the subtrees of its children from left to
    right. *)
Fixpoint preorder (n : node) : list node :=
  match n with
  | Node c fs => Node c fs :: flat_map (fun f => preorder_value (snd f)) fs
  end
with preorder_value (v : value) : list node :=
  match v with
  | VNode m => preorder m
  | VList items =>
      flat_map (fun item =>
                  match item with VNode m => preorder m | _ => [] end) items
  | _ => []
  end.

(** Level order: the nodes of a level from left to right, then the level
    made of their children.  [depth] bounds the number of levels. *)
Fixpoint level_order (depth : nat) (level : list node) : list node :=
  match depth with
  | O => []
  | S depth' =>
      match level with
      | [] => []
      | _ => app level (level_order depth' (flat_map iter_child_nodes level))
      end
  end.

Definition breadth_first (n : node) : list node :=
  level_order (count_nodes n) [n].

(** Number of nodes of a list of trees. *)
Definition count_forest (ns : list node) : nat :=
  list_sum (map count_nodes ns).

(** ** What the claims say about a parsed tree *)

(** A function definition whose [body] is there and is not empty. *)
Definition has_body (n : node) : bool :=
  match lookup "body" (node_fields n) with
  | Some v => truthy v
  | None => false
  end.

(** A node that is not a function definition with an empty body. *)
Definition function_ok (n : node) : bool :=
  implb (isinstance n "FunctionDef") (has_body n).

(** No function definition of the tree has an empty body. *)
Definition no_empty_function (tree : node) : bool :=
  forallb function_ok (walk tree).

(** A call whose callee is the bare name [print]. *)
Definition print_call (n : node) : bool :=
  isinstance n "Call" &&
  match lookup "func" (node_fields n) with
  | Some (VNode f) =>
      isinstance f "Name" &&
      match lookup "id" (node_fields f) with
      | Some id => eq_str id "print"
      | None => false
      end
  | _ => false
  end.

(** A call whose callee is the attribute [logging.info]. *)
Definition logging_info_callee (n : node) : bool :=
  isinstance n "Call" &&
  match lookup "func" (node_fields n) with
  | Some (VNode f) =>
      isinstance f "Attribute" &&
      match lookup "attr" (node_fields f), lookup "value" (node_fields f) with
      | Some attr, Some (VNode v) =>
          eq_str attr "info" && isinstance v "Name" &&
          match lookup "id" (node_fields v) with
          | Some id => eq_str id "logging"
          | None => false
          end
      | _, _ => false
      end
  | _ => false
  end.

(** A node carries the fields the services read from an object of its class:
    [func] and [args] on a [Call], [id] on a [Name] that is the callee of a
    call, [body] and [name] on a [FunctionDef].  A parser sets every field of
    the nodes it builds. *)
Definition has_field (n : node) (name : string) : bool :=
  match lookup name (node_fields n) with
  | Some _ => true
  | None => false
  end.

Definition fields_present (n : node) : bool :=
  implb (isinstance n "Call")
    (has_field n "args" &&
     match lookup "func" (node_fields n) with
     | Some (VNode f) => implb (isinstance f "Name") (has_field f "id")
     | Some _ => true
     | None => false
     end) &&
  implb (isinstance n "FunctionDef") (has_field n "body" && has_field n "name").

Definition well_formed (tree : node) : bool :=
  forallb fields_present (walk tree).

(** The number of levels of a tree. *)
Fixpoint height (n : node) : nat :=
  match n with
  | Node _ fs => S (list_max (map (fun f => height_value (snd f)) fs))
  end
with height_value (v : value) : nat :=
  match v with
  | VNode m => height m
  | VList items =>
      list_max (map (fun item =>
                       match item with VNode m => height m | _ => 0 end)
                  items)
  | _ => 0
  end.

(** Lines 31 and 32 have the frames they need on the node built for [n]: the
    visit of line 32, the deeper of the two, takes two frames for each level
    of the new node. *)
Definition step_fits (frames : nat) (n : node) : bool :=
  implb (print_call n)
    match lookup "args" (node_fields n) with
    | Some args => 2 * height (logging_info_call args) <=? frames
    | None => true
    end.

Definition visits_fit (frames : nat) (tree : node) : bool :=
  forallb (step_fits frames) (walk tree).

(** Both: what a parser promises for each node it builds. *)
Definition node_ok (m : node) : Prop :=
  function_ok m = true /\ fields_present m = true.

(** The finding the analyzer reports at a node, if any. *)
Definition findings (n : node) : list string :=
  if isinstance n "FunctionDef" && negb (has_body n) then
    match lookup "name" (node_fields n) with
    | Some name => ["Empty function found: " ++ py_str name]
    | None => []
    end
  else [].

(** What the [except] clause of [refactor_code] makes of an outcome. *)
Definition refactor_report (o : outcome string) : outcome string :=
  try_except_Exception o
    (fun ex => Return ("Refactoring error: " ++ exn_str ex)).

(** The places where [refactor_code] can fail: parsing, the loop that builds
    the new nodes, and the regeneration of the text. *)
Inductive fails_internally (parse : string -> outcome node)
  (unparse : node -> outcome string) (frames : nat) (code : string) (e : exn)
  : Prop :=
| parse_fails :
    parse code = Raise e -> fails_internally parse unparse frames code e
| transformation_fails (tree : node) :
    parse code = Return tree ->
    for_each (walk tree) (refactor_step frames) (mkLocals tree None) = Raise e ->
    fails_internally parse unparse frames code e
| regeneration_fails (tree : node) (st : locals) :
    parse code = Return tree ->
    for_each (walk tree) (refactor_step frames) (mkLocals tree None)
    = Return st ->
    unparse (l_tree st) = Raise e ->
    fails_internally parse unparse frames code e.

(** Whether a text occurs in another. *)
Fixpoint contains (text sub : string) : bool :=
  if prefix sub text then true
  else match text with
       | EmptyString => false
       | String _ rest => contains rest sub
       end.

(** ** A parser and a printer for a fragment of Python

    The fragment: a module is a sequence of lines; a simple statement is
    [pass] or an expression; an expression is a name followed by attribute
    accesses [.name] and calls [(e, ..., e)]; a function definition is
    [def f():] followed by one simple statement on the same line or by an
    indented block of simple statements.  [parse] builds the nodes
    [ast.parse] builds for such a text (Python 3.12 field lists) and [unparse]
    writes what [ast.unparse] writes for such nodes, or raises
    [RecursionError] when the tree is too deep for the frames it has.
    Outside the fragment both raise; there they say nothing about CPython.
    The text of the [SyntaxError] is a fixed one, not the message CPython
    composes, and the limits CPython's parser puts on nesting are not
    modelled. *)

Module Fragment.

Inductive pexpr : Type :=
| PName (id : string)
| PAttr (e : pexpr) (attr : string)
| PCall (f : pexpr) (args : list pexpr).

Inductive simple : Type :=
| SPass
| SExpr (e : pexpr).

Inductive pstmt : Type :=
| PSimple (s : simple)
| PDef (name : string) (first : simple) (rest : list simple).

(** *** From the fragment to [ast] nodes *)

Fixpoint embed_expr (e : pexpr) : node :=
  match e with
  | PName id => Name id Load
  | PAttr e' attr => Attribute (embed_expr e') attr Load
  | PCall f args =>
      Call (embed_expr f) (VList (map (fun a => VNode (embed_expr a)) args))
        (VList [])
  end.

Definition embed_simple (s : simple) : node :=
  match s with
  | SPass => Node "Pass" []
  | SExpr e => Node "Expr" [("value", VNode (embed_expr e))]
  end.

Definition no_arguments : node :=
  Node "arguments"
    [("posonlyargs", VList []); ("args", VList []); ("vararg", VNone);
     ("kwonlyargs", VList []); ("kw_defaults", VList []); ("kwarg", VNone);
     ("defaults", VList [])].

Definition embed_stmt (s : pstmt) : node :=
  match s with
  | PSimple s' => embed_simple s'
  | PDef name first rest =>
      Node "FunctionDef"
        [("name", VStr name); ("args", VNode no_arguments);
         ("body", VList (map (fun b => VNode (embed_simple b)) (first :: rest)));
         ("decorator_list", VList []); ("returns", VNone);
         ("type_comment", VNone); ("type_params", VList [])]
  end.

Definition embed_module (body : list pstmt) : node :=
  Node "Module"
    [("body", VList (map (fun s => VNode (embed_stmt s)) body));
     ("type_ignores", VList [])].

(** *** Tokens *)

Inductive token : Type :=
| TName (s : string)
| TLParen | TRParen | TComma | TDot | TColon.

Definition is_ident_start (c : ascii) : bool :=
  let k := nat_of_ascii c in
  ((65 <=? k) && (k <=? 90)) || ((97 <=? k) && (k <=? 122)) || (k =? 95).

Definition is_digit (c : ascii) : bool :=
  let k := nat_of_ascii c in (48 <=? k) && (k <=? 57).

Definition punct (c : ascii) : option (list token) :=
  let k := nat_of_ascii c in
  if k =? 32 then Some []
  else if k =? 40 then Some [TLParen]
  else if k =? 41 then Some [TRParen]
  else if k =? 44 then Some [TComma]
  else if k =? 46 then Some [TDot]
  else if k =? 58 then Some [TColon]
  else None.

Definition flush (word : string) (ts : list token) : list token :=
  match word with
  | EmptyString => ts
  | _ => TName word :: ts
  end.

(** Tokens of a line; [word] is the identifier being read. *)
Fixpoint lex (s : string) (word : string) : option (list token) :=
  match s with
  | EmptyString => Some (flush word [])
  | String c rest =>
      if is_ident_start c then lex rest (word ++ String c EmptyString)
      else if is_digit c then
        match word with
        | EmptyString => None
        | _ => lex rest (word ++ String c EmptyString)
        end
      else
        match punct c, lex rest EmptyString with
        | Some p, Some ts => Some (flush word (app p ts))
        | _, _ => None
        end
  end.

Definition keywords : list string :=
  ["False"; "None"; "True"; "and"; "as"; "assert"; "async"; "await"; "break";
   "class"; "continue"; "def"; "del"; "elif"; "else"; "except"; "finally";
   "for"; "from"; "global"; "if"; "import"; "in"; "is"; "lambda"; "nonlocal";
   "not"; "or"; "pass"; "raise"; "return"; "try"; "while"; "with"; "yield"].

Definition is_keyword (s : string) : bool :=
  existsb (String.eqb s) keywords.

(** *** Expressions *)

Fixpoint parse_expr (fuel : nat) (ts : list token)
  : option (pexpr * list token) :=
  match fuel with
  | O => None
  | S fuel' =>
      match ts with
      | TName x :: rest =>
          if is_keyword x then None else parse_postfix fuel' (PName x) rest
      | _ => None
      end
  end
with parse_postfix (fuel : nat) (e : pexpr) (ts : list token)
  : option (pexpr * list token) :=
  match fuel with
  | O => None
  | S fuel' =>
      match ts with
      | TDot :: TName a :: rest =>
          if is_keyword a then None else parse_postfix fuel' (PAttr e a) rest
      | TDot :: _ => None
      | TLParen :: TRParen :: rest => parse_postfix fuel' (PCall e []) rest
      | TLParen :: rest =>
          match parse_args fuel' rest with
          | Some (args, rest') => parse_postfix fuel' (PCall e args) rest'
          | None => None
          end
      | _ => Some (e, ts)
      end
  end
with parse_args (fuel : nat) (ts : list token)
  : option (list pexpr * list token) :=
  match fuel with
  | O => None
  | S fuel' =>
      match parse_expr fuel' ts with
      | Some (e, TRParen :: rest) => Some ([e], rest)
      | Some (e, TComma :: TRParen :: rest) => Some ([e], rest)
      | Some (e, TComma :: rest) =>
          match parse_args fuel' rest with
          | Some (es, rest') => Some (e :: es, rest')
          | None => None
          end
      | _ => None
      end
  end.

(** *** Lines and statements *)

Definition is_name (t : token) (s : string) : bool :=
  match t with
  | TName x => String.eqb x s
  | _ => false
  end.

Definition is_pass (ts : list token) : bool :=
  match ts with
  | [t] => is_name t "pass"
  | _ => false
  end.

Definition parse_simple (ts : list token) : option simple :=
  if is_pass ts then Some SPass
  else
    match parse_expr (2 * List.length ts + 2) ts with
    | Some (e, []) => Some (SExpr e)
    | _ => None
    end.

(** [def f():] and the tokens that follow it on the line. *)
Definition parse_def_header (ts : list token) : option (string * list token) :=
  match ts with
  | d :: TName f :: TLParen :: TRParen :: TColon :: rest =>
      if is_name d "def" && negb (is_keyword f) then Some (f, rest) else None
  | _ => None
  end.

(** A line: its indentation and its tokens. *)
Definition line : Type := (nat * list token)%type.

Fixpoint split_lines (s : string) (cur : string) : list string :=
  match s with
  | EmptyString => [cur]
  | String c rest =>
      if Ascii.eqb c LF then cur :: split_lines rest EmptyString
      else split_lines rest (cur ++ String c EmptyString)
  end.

Fixpoint indentation (s : string) : nat :=
  match s with
  | String c rest => if Ascii.eqb c " " then S (indentation rest) else O
  | EmptyString => O
  end.

(** The lines of a text that hold a token; blank lines are dropped. *)
Fixpoint lex_lines (ls : list string) : option (list line) :=
  match ls with
  | [] => Some []
  | l :: rest =>
      match lex l EmptyString, lex_lines rest with
      | Some [], Some ls' => Some ls'
      | Some ts, Some ls' => Some ((indentation l, ts) :: ls')
      | _, _ => None
      end
  end.

(** The simple statements indented by [k], up to the next line at column 0. *)
Fixpoint parse_block (k : nat) (ls : list line)
  : option (list simple * list line) :=
  match ls with
  | [] => Some ([], [])
  | (i, ts) :: rest =>
      if i =? 0 then Some ([], ls)
      else if i =? k then
        match parse_simple ts, parse_block k rest with
        | Some s, Some (ss, rest') => Some (s :: ss, rest')
        | _, _ => None
        end
      else None
  end.

Fixpoint parse_stmts (fuel : nat) (ls : list line) : option (list pstmt) :=
  match fuel with
  | O => match ls with [] => Some [] | _ => None end
  | S fuel' =>
      match ls with
      | [] => Some []
      | (i, ts) :: rest =>
          if negb (i =? 0) then None
          else
            match parse_def_header ts with
            | Some (f, []) =>
                match rest with
                | (k, _) :: _ =>
                    match parse_block k rest with
                    | Some (s :: ss, rest') =>
                        option_map (cons (PDef f s ss)) (parse_stmts fuel' rest')
                    | _ => None
                    end
                | [] => None
                end
            | Some (f, body) =>
                match parse_simple body, parse_stmts fuel' rest with
                | Some s, Some ps => Some (PDef f s [] :: ps)
                | _, _ => None
                end
            | None =>
                match parse_simple ts, parse_stmts fuel' rest with
                | Some s, Some ps => Some (PSimple s :: ps)
                | _, _ => None
                end
            end
      end
  end.

Definition parse_program (code : string) : option (list pstmt) :=
  match lex_lines (split_lines code EmptyString) with
  | Some ls => parse_stmts (List.length ls) ls
  | None => None
  end.

Definition parse (code : string) : outcome node :=
  match parse_program code with
  | Some body => Return (embed_module body)
  | None => Raise (mkExn SyntaxError "invalid syntax")
  end.

(** *** The printer: the visitor of [ast.unparse]

    [src] is the list of the pieces written so far ([_Unparser._source]);
    the result is their concatenation. *)

Definition write (text : string) (src : list string) : list string :=
  app src [text].

Definition maybe_newline (src : list string) : list string :=
  match src with
  | [] => src
  | _ => write nl src
  end.

Fixpoint indent_text (k : nat) : string :=
  match k with
  | O => ""
  | S k' => "    " ++ indent_text k'
  end.

Definition fill (indent : nat) (text : string) (src : list string)
  : list string :=
  write (indent_text indent ++ text) (maybe_newline src).

Definition outside {A : Type} (n : node) : outcome A :=
  Raise (mkExn ValueError ("outside the fragment: " ++ node_cls n)).

Definition node_field (n : node) (name : string) : outcome node :=
  v <- getattr n name ;;
  match v with VNode m => Return m | _ => outside n end.

Definition str_field (n : node) (name : string) : outcome string :=
  v <- getattr n name ;;
  match v with VStr s => Return s | _ => outside n end.

Fixpoint all_nodes (n : node) (items : list value) : outcome (list node) :=
  match items with
  | [] => Return []
  | VNode m :: rest => ms <- all_nodes n rest ;; Return (m :: ms)
  | _ :: _ => outside n
  end.

Definition list_field (n : node) (name : string) : outcome (list node) :=
  v <- getattr n name ;;
  match v with VList items => all_nodes n items | _ => outside n end.

(** The fields that the fragment leaves empty. *)
Definition empty_field (n : node) (name : string) : outcome unit :=
  v <- getattr n name ;;
  match v with
  | VList [] => Return tt
  | VNone => Return tt
  | _ => outside n
  end.

Definition empty_fields (n : node) (names : list string) : outcome unit :=
  for_each names (fun _ name => empty_field n name) tt.

Fixpoint traverse (fuel indent : nat) (n : node) (src : list string)
  : outcome (list string) :=
  match fuel with
  | O => Raise recursion_error
  | S fuel' =>
      if isinstance n "Module" then
        body <- list_field n "body" ;;
        for_each body (fun s m => traverse fuel' indent m s) src
      else if isinstance n "Expr" then
        e <- node_field n "value" ;;
        traverse fuel' indent e (fill indent "" src)
      else if isinstance n "Pass" then
        Return (fill indent "pass" src)
      else if isinstance n "FunctionDef" then
        name <- str_field n "name" ;;
        args <- node_field n "args" ;;
        _ <- empty_fields args
               ["posonlyargs"; "args"; "vararg"; "kwonlyargs"; "kw_defaults";
                "kwarg"; "defaults"] ;;
        _ <- empty_fields n
               ["decorator_list"; "returns"; "type_comment"; "type_params"] ;;
        body <- list_field n "body" ;;
        let src := fill indent ("def " ++ name) (maybe_newline src) in
        let src := write ":" (write ")" (write "(" src)) in
        for_each body (fun s m => traverse fuel' (S indent) m s) src
      else if isinstance n "Name" then
        id <- str_field n "id" ;;
        Return (write id src)
      else if isinstance n "Attribute" then
        v <- node_field n "value" ;;
        attr <- str_field n "attr" ;;
        src <- traverse fuel' indent v src ;;
        Return (write attr (write "." src))
      else if isinstance n "Call" then
        func <- node_field n "func" ;;
        args <- list_field n "args" ;;
        _ <- empty_field n "keywords" ;;
        src <- traverse fuel' indent func src ;;
        st <- for_each args
                (fun (st : bool * list string) a =>
                   src <- traverse fuel' indent a
                            (if fst st then write ", " (snd st) else snd st) ;;
                   Return (true, src))
                (false, write "(" src) ;;
        Return (write ")" (snd st))
      else outside n
  end.

(** [ast.unparse(n)] with [frames] frames left: the visitor takes three
    frames ([traverse], [visit], [visit_<Class>]) for each level of the
    tree. *)
Definition unparse (frames : nat) (n : node) : outcome string :=
  src <- traverse (frames / 3) 0 n [] ;;
  Return (String.concat "" src).

End Fragment.

(** ** The fragment's printer and parser, on the typed syntax

    What [Fragment.unparse] writes for the tree of a module and what
    [Fragment.parse] reads back from that text, stated on the typed syntax of
    the fragment.  They serve to show that the parser gives back the tree of
    every text the printer writes for a parsed tree. *)

Module FragmentText.
Import Fragment.

(** A character of an identifier. *)
Definition is_ident_char (c : ascii) : bool := is_ident_start c || is_digit c.

(** Every character of a text passes a test. *)
Fixpoint all_chars (p : ascii -> bool) (s : string) : bool :=
  match s with
  | EmptyString => true
  | String c rest => p c && all_chars p rest
  end.

(** An identifier as the lexer reads one: a start character, then
    identifier characters. *)
Definition lexical (w : string) : bool :=
  match w with
  | EmptyString => false
  | String c rest => is_ident_start c && all_chars is_ident_char rest
  end.

(** An identifier that is no keyword. *)
Definition valid_name (w : string) : bool := lexical w && negb (is_keyword w).

(** Every name of an expression is an identifier and no keyword: what the
    parser guarantees of the expressions it returns. *)
Fixpoint valid_expr (e : pexpr) : bool :=
  match e with
  | PName id => valid_name id
  | PAttr e' attr => valid_expr e' && valid_name attr
  | PCall f args => valid_expr f && forallb valid_expr args
  end.

Definition valid_simple (s : simple) : bool :=
  match s with SPass => true | SExpr e => valid_expr e end.

Definition valid_stmt (s : pstmt) : bool :=
  match s with
  | PSimple s' => valid_simple s'
  | PDef name first rest => valid_name name && forallb valid_simple (first :: rest)
  end.

(** The tokens of an expression, followed by [k]. *)
Fixpoint toks_expr (e : pexpr) (k : list token) : list token :=
  match e with
  | PName id => TName id :: k
  | PAttr e' attr => toks_expr e' (TDot :: TName attr :: k)
  | PCall f args =>
      toks_expr f
        (TLParen ::
         (fix toks_args (l : list pexpr) (k : list token) : list token :=
            match l with
            | [] => k
            | [a] => toks_expr a k
            | a :: rest => toks_expr a (TComma :: toks_args rest k)
            end) args (TRParen :: k))
  end.

(** The tokens of the arguments of a call, separated by commas, followed
    by [k]. *)
Fixpoint toks_args (l : list pexpr) (k : list token) : list token :=
  match l with
  | [] => k
  | [a] => toks_expr a k
  | a :: rest => toks_expr a (TComma :: toks_args rest k)
  end.

(** The text [ast.unparse] writes for an expression, followed by [r]. *)
Fixpoint show_expr (e : pexpr) (r : string) : string :=
  match e with
  | PName id => id ++ r
  | PAttr e' attr => show_expr e' ("." ++ attr ++ r)
  | PCall f args =>
      show_expr f
        ("(" ++
         (fix show_args (l : list pexpr) (r : string) : string :=
            match l with
            | [] => r
            | [a] => show_expr a r
            | a :: rest => show_expr a (", " ++ show_args rest r)
            end) args (")" ++ r))
  end.

(** The text of the arguments of a call, separated by a comma and a space,
    followed by [r]. *)
Fixpoint show_args (l : list pexpr) (r : string) : string :=
  match l with
  | [] => r
  | [a] => show_expr a r
  | a :: rest => show_expr a (", " ++ show_args rest r)
  end.

(** A text that ends the identifier before it: the empty text, or one that
    starts with a character that is not of an identifier. *)
Definition delimited (r : string) : bool :=
  match r with
  | EmptyString => true
  | String c _ => negb (is_ident_char c)
  end.

(** Fuel that [parse_expr] uses on the tokens of an expression. *)
Fixpoint cost (e : pexpr) : nat :=
  match e with
  | PName _ => 1
  | PAttr e' _ => S (cost e')
  | PCall f args => S (cost f + list_sum (map (fun a => S (S (cost a))) args))
  end.

Definition cost_args (args : list pexpr) : nat :=
  list_sum (map (fun a => S (S (cost a))) args).

(** Reading the tokens of [e] leaves the parser where it is after [e]:
    in the loop of [parse_postfix], with [e] read. *)
Definition parses (e : pexpr) : Prop :=
  forall (ts : list token) (r : pexpr * list token) (k : nat),
    parse_postfix k e ts = Some r ->
    parse_expr (k + cost e) (toks_expr e ts) = Some r.

(** The fuel [parse_simple] gives is enough. *)
Definition bounded (e : pexpr) : Prop :=
  forall k : list token,
    2 * List.length k + cost e <= 2 * List.length (toks_expr e k).

(** A token the lexer can have produced. *)
Definition tok_ok (t : token) : bool :=
  match t with
  | TName w => lexical w
  | _ => true
  end.

Definition toks_ok (ts : list token) : bool := forallb tok_ok ts.

Definition valid_program (p : list pstmt) : bool := forallb valid_stmt p.

(** The tokens of a simple statement. *)
Definition toks_simple (s : simple) : list token :=
  match s with
  | SPass => [TName "pass"]
  | SExpr e => toks_expr e []
  end.

(** The tokens of the line [def f():]. *)
Definition def_header (f : string) : list token :=
  [TName "def"; TName f; TLParen; TRParen; TColon].

(** The lines of a printed statement: a definition is printed with its body
    on lines of its own, indented by four spaces. *)
Definition lines_of_stmt (s : pstmt) : list line :=
  match s with
  | PSimple s' => [(0, toks_simple s')]
  | PDef f first rest =>
      (0, def_header f) :: map (fun b => (4, toks_simple b)) (first :: rest)
  end.

Definition lines_of (p : list pstmt) : list line := flat_map lines_of_stmt p.

Definition lines_ok (ls : list line) : bool :=
  forallb (fun l : line => toks_ok (snd l)) ls.

(** The first line, if any, is not indented. *)
Definition starts_at_margin (ls : list line) : bool :=
  match ls with
  | [] => true
  | (i, _) :: _ => i =? 0
  end.

(** The pieces [traverse] writes for an expression. *)
Fixpoint pieces_expr (e : pexpr) : list string :=
  match e with
  | PName id => [id]
  | PAttr e' attr => app (pieces_expr e') ["."; attr]
  | PCall f args =>
      app (pieces_expr f)
        ("(" ::
         app ((fix pieces_args (comma : bool) (l : list pexpr) : list string :=
                 match l with
                 | [] => []
                 | a :: rest =>
                     app (if comma then [", "] else [])
                       (app (pieces_expr a) (pieces_args true rest))
                 end) false args)
           [")"])
  end.

(** The pieces written for the arguments of a call; [comma] tells whether a
    separator comes first. *)
Fixpoint pieces_args (comma : bool) (l : list pexpr) : list string :=
  match l with
  | [] => []
  | a :: rest =>
      app (if comma then [", "] else [])
        (app (pieces_expr a) (pieces_args true rest))
  end.

(** The printer on the typed syntax. *)
Definition write_simple (indent : nat) (s : simple) (src : list string)
  : list string :=
  match s with
  | SPass => fill indent "pass" src
  | SExpr e => app (fill indent "" src) (pieces_expr e)
  end.

Definition write_stmt (s : pstmt) (src : list string) : list string :=
  match s with
  | PSimple s' => write_simple 0 s' src
  | PDef name first rest =>
      fold_left (fun acc b => write_simple 1 b acc) (first :: rest)
        (write ":" (write ")" (write "("
           (fill 0 ("def " ++ name) (maybe_newline src)))))
  end.

Definition write_program (p : list pstmt) (src : list string) : list string :=
  fold_left (fun acc s => write_stmt s acc) p src.

(** [traverse] writes the pieces of [e] when its fuel covers the tree. *)
Definition prints (e : pexpr) : Prop :=
  forall (fuel indent : nat) (src : list string),
    count_nodes (embed_expr e) <= fuel ->
    traverse fuel indent (embed_expr e) src = Return (app src (pieces_expr e)).

(** A [FunctionDef] and a [Module] node of the fragment, given the nodes
    of their bodies. *)
Definition def_node (name : string) (body : list node) : node :=
  Node "FunctionDef"
    [("name", VStr name); ("args", VNode no_arguments);
     ("body", VList (map VNode body));
     ("decorator_list", VList []); ("returns", VNone);
     ("type_comment", VNone); ("type_params", VList [])].

Definition module_node (body : list node) : node :=
  Node "Module" [("body", VList (map VNode body)); ("type_ignores", VList [])].

(** The lines of the text of a statement; [first] tells whether it opens
    the module (else an empty line precedes a definition). *)
Definition show_simple (s : simple) : string :=
  match s with
  | SPass => "pass"
  | SExpr e => show_expr e ""
  end.

Definition stmt_strings (first : bool) (s : pstmt) : list string :=
  match s with
  | PSimple s' => [show_simple s']
  | PDef f b bs =>
      app (if first then [] else [""])
        (("def " ++ f ++ "():")
         :: map (fun x => "    " ++ show_simple x) (b :: bs))
  end.

Fixpoint program_strings (first : bool) (p : list pstmt) : list string :=
  match p with
  | [] => []
  | s :: p' => app (stmt_strings first s) (program_strings false p')
  end.

(** Lines joined by line feeds; when not [first], a line feed comes first. *)
Fixpoint lines_text (first : bool) (ls : list string) : string :=
  match ls with
  | [] => ""
  | l :: ls' => (if first then "" else nl) ++ l ++ lines_text false ls'
  end.

Definition is_nil {A : Type} (l : list A) : bool :=
  match l with
  | [] => true
  | _ => false
  end.

(** The pieces of [e] concatenate to its text. *)
Definition shows (e : pexpr) : Prop :=
  forall r : string, String.concat "" (pieces_expr e) ++ r = show_expr e r.

(** A text without line feed. *)
Definition no_lf (s : string) : bool :=
  all_chars (fun c => negb (Ascii.eqb c LF)) s.

End FragmentText.

(** ** Sources and trees used in the runs below *)

Module Examples.
Import Fragment.

(** [print(x, y)] *)
Definition print_tree : node :=
  embed_module
    [PSimple (SExpr (PCall (PName "print") [PName "x"; PName "y"]))].

(** [logging.info(x, y)], as an expression and as a module *)
Definition logging_call : node :=
  embed_expr (PCall (PAttr (PName "logging") "info") [PName "x"; PName "y"]).

Definition logging_tree : node :=
  embed_module
    [PSimple
       (SExpr (PCall (PAttr (PName "logging") "info") [PName "x"; PName "y"]))].

(** [def f(): pass] *)
Definition pass_function_tree : node :=
  embed_module [PDef "f" SPass []].

(** The two lines [f(x)] and [y] *)
Definition two_lines : string := "f(x)" ++ nl ++ "y".

Definition two_lines_tree : node :=
  embed_module
    [PSimple (SExpr (PCall (PName "f") [PName "x"]));
     PSimple (SExpr (PName "y"))].

(** A call, a function definition and a name, and the text [ast.unparse]
    writes for them: the definition on two lines after an empty line. *)
Definition three_statements : string :=
  "a.b(c)" ++ nl ++ "def f(): pass" ++ nl ++ "z".

Definition three_statements_tree : node :=
  embed_module
    [PSimple (SExpr (PCall (PAttr (PName "a") "b") [PName "c"]));
     PDef "f" SPass [];
     PSimple (SExpr (PName "z"))].

Definition three_statements_text : string :=
  "a.b(c)" ++ nl ++ nl ++ "def f():" ++ nl ++ "    pass" ++ nl ++ "z".

Definition invalid_syntax : exn := mkExn SyntaxError "invalid syntax".

(** The frames of the default recursion limit. *)
Definition default_frames : nat := 1000.

(** The expression [x.a.a...a] with [k] attribute accesses, and the text
    that follows [x] in its source. *)
Fixpoint chain (k : nat) : pexpr :=
  match k with
  | O => PName "x"
  | S k' => PAttr (chain k') "a"
  end.

Fixpoint chain_text (k : nat) : string :=
  match k with
  | O => ""
  | S k' => ".a" ++ chain_text k'
  end.

(** A source without [print] call: [x] followed by 400 attribute accesses. *)
Definition deep_attribute : string := "x" ++ chain_text 400.

Definition deep_attribute_tree : node :=
  embed_module [PSimple (SExpr (chain 400))].



(** A tree no parser builds: a module whose first statement holds, one level
    down, a function [b] with an empty list for body, and whose second
    statement is a function [c] with an empty list for body. *)
Definition empty_function (name : string) : node :=
  Node "FunctionDef"
    [("name", VStr name); ("args", VNode no_arguments); ("body", VList []);
     ("decorator_list", VList []); ("returns", VNone);
     ("type_comment", VNone); ("type_params", VList [])].

Definition empty_functions_tree : node :=
  Node "Module"
    [("body",
      VList
        [VNode (Node "If"
                  [("test", VNode (Name "x" Load));
                   ("body", VList [VNode (empty_function "b")]);
                   ("orelse", VList [])]);
         VNode (empty_function "c")]);
     ("type_ignores", VList [])].

End Examples.

(** ** The objects of the two services

    Both classes are used through an object: [__init__] builds it,
    [initialize] and [shutdown] are called around the working calls.  A
    method takes the object and gives it back with its result. *)

Module Lifecycle.

(** An [Analyzer] object: its one attribute, the list [self.analyzers]. *)
Record Analyzer : Type := mkAnalyzer { analyzers : list value }.

(** A [RefactorEngine] object: [__init__] sets no attribute. *)
Inductive RefactorEngine : Type := mkRefactorEngine.

(** A call on a service object. *)
Inductive call : Type :=
| Initialize
| Work (code : string)
| Shutdown.

Section Methods.

Variable parse : string -> outcome node.
Variable unparse : node -> outcome string.
Variable frames : nat.

(** [Analyzer.__init__]: [self.analyzers = []]. *)
Definition Analyzer_init : Analyzer := mkAnalyzer [].

(** [Analyzer.initialize] and [Analyzer.shutdown]: [pass]; the call
    returns [None]. *)
Definition Analyzer_initialize (self : Analyzer) : Analyzer * outcome value :=
  (self, Return VNone).

Definition Analyzer_shutdown (self : Analyzer) : Analyzer * outcome value :=
  (self, Return VNone).

(** [Analyzer.analyze_code]: the body reads and writes no attribute of
    [self]. *)
Definition Analyzer_analyze_code (self : Analyzer) (code : string)
  : Analyzer * outcome value :=
  (self, s <- analyze_code parse code ;; Return (VStr s)).

Definition Analyzer_call (self : Analyzer) (c : call)
  : Analyzer * outcome value :=
  match c with
  | Initialize => Analyzer_initialize self
  | Work code => Analyzer_analyze_code self code
  | Shutdown => Analyzer_shutdown self
  end.

(** [RefactorEngine.__init__], [initialize] and [shutdown]: [pass]. *)
Definition RefactorEngine_init : RefactorEngine := mkRefactorEngine.

Definition RefactorEngine_initialize (self : RefactorEngine)
  : RefactorEngine * outcome value :=
  (self, Return VNone).

Definition RefactorEngine_shutdown (self : RefactorEngine)
  : RefactorEngine * outcome value :=
  (self, Return VNone).

Definition RefactorEngine_refactor_code (self : RefactorEngine) (code : string)
  : RefactorEngine * outcome value :=
  (self, s <- refactor_code parse unparse frames code ;; Return (VStr s)).

Definition RefactorEngine_call (self : RefactorEngine) (c : call)
  : RefactorEngine * outcome value :=
  match c with
  | Initialize => RefactorEngine_initialize self
  | Work code => RefactorEngine_refactor_code self code
  | Shutdown => RefactorEngine_shutdown self
  end.

End Methods.

(** A sequence of calls on one object: the object at the end and the result
    of each call. *)
Fixpoint run {O : Type} (method : O -> call -> O * outcome value)
  (self : O) (calls : list call) : O * list (outcome value) :=
  match calls with
  | [] => (self, [])
  | c :: rest =>
      let (self1, r) := method self c in
      let (self2, rs) := run method self1 rest in
      (self2, r :: rs)
  end.

(** What a call gives on an object that was just built. *)
Definition fresh_result {O : Type} (method : O -> call -> O * outcome value)
  (init : O) (c : call) : outcome value :=
  snd (method init c).

End Lifecycle.


(** An exception outside [Exception], and a parser that is interrupted. *)
Definition interrupt : exn := mkExn KeyboardInterrupt "".

Definition interrupted_parse (code : string) : outcome node := Raise interrupt.

(** * Properties *)

(** ** Trees and traversals *)

Lemma count_value_nodes (v : value) :
  count_value v = count_forest (nodes_of_value v).
Proof.
  destruct v as [| | | |items|m]; simpl; try reflexivity.
  - unfold count_forest, nodes_of_items.
    induction items as [|item items IH]; simpl; [reflexivity|].
    rewrite map_app, list_sum_app, <- IH.
    destruct item; simpl; lia.
  - unfold count_forest. simpl. lia.
Qed.

Lemma count_nodes_children (n : node) :
  count_nodes n = S (count_forest (iter_child_nodes n)).
Proof.
  destruct n as [c fs]. simpl. f_equal.
  unfold iter_child_nodes, count_forest. simpl.
  induction fs as [|f fs IH]; simpl; [reflexivity|].
  rewrite map_app, list_sum_app, <- IH, count_value_nodes.
  reflexivity.
Qed.

Lemma count_forest_app (a b : list node) :
  count_forest (app a b) = count_forest a + count_forest b.
Proof. unfold count_forest. now rewrite map_app, list_sum_app. Qed.

Lemma count_forest_children (q : list node) :
  count_forest q = List.length q + count_forest (flat_map iter_child_nodes q).
Proof.
  induction q as [|n q IH]; simpl; [reflexivity|].
  rewrite count_forest_app.
  change (count_forest (n :: q)) with (count_nodes n + count_forest q).
  rewrite count_nodes_children. lia.
Qed.

Lemma preorder_value_nodes (v : value) :
  preorder_value v = flat_map preorder (nodes_of_value v).
Proof.
  destruct v as [| | | |items|m]; simpl; try reflexivity.
  - unfold nodes_of_items.
    induction items as [|item items IH]; simpl; [reflexivity|].
    rewrite flat_map_app, <- IH.
    destruct item; simpl; try reflexivity.
    now rewrite app_nil_r.
  - now rewrite app_nil_r.
Qed.

Lemma preorder_children (n : node) :
  preorder n = n :: flat_map preorder (iter_child_nodes n).
Proof.
  destruct n as [c fs]. simpl. f_equal.
  unfold iter_child_nodes. simpl.
  induction fs as [|f fs IH]; simpl; [reflexivity|].
  now rewrite flat_map_app, <- IH, preorder_value_nodes.
Qed.

(** The queue of [walk] empties a level before it starts the next one. *)
Lemma walk_queue_level (a : list node) :
  forall (fuel : nat) (c : list node),
    walk_queue (List.length a + fuel) (app a c)
    = app a (walk_queue fuel (app c (flat_map iter_child_nodes a))).
Proof.
  induction a as [|n a IH]; intros fuel c; simpl.
  - now rewrite app_nil_r.
  - f_equal. rewrite <- app_assoc, IH. now rewrite <- app_assoc.
Qed.

Lemma walk_queue_nil (fuel : nat) : walk_queue fuel [] = [].
Proof. now destruct fuel. Qed.

Lemma walk_queue_level_order (depth : nat) :
  forall (fuel : nat) (q : list node),
    count_forest q <= depth -> count_forest q <= fuel ->
    walk_queue fuel q = level_order depth q.
Proof.
  induction depth as [|depth IH]; intros fuel q Hd Hf.
  - destruct q as [|n q]; [apply walk_queue_nil|].
    change (count_forest (n :: q)) with (count_nodes n + count_forest q) in Hd.
    rewrite count_nodes_children in Hd. lia.
  - destruct q as [|n q]; [apply walk_queue_nil|].
    pose proof (count_forest_children (n :: q)) as Hc.
    remember (n :: q) as level eqn:Hlevel.
    assert (Hq : walk_queue fuel level
                 = app level (walk_queue (fuel - List.length level)
                                (flat_map iter_child_nodes level))).
    { pose proof (walk_queue_level level (fuel - List.length level) [])
        as Hlv.
      rewrite app_nil_r in Hlv. simpl in Hlv.
      replace (List.length level + (fuel - List.length level)) with fuel
        in Hlv by lia.
      exact Hlv. }
    rewrite Hq.
    rewrite (IH (fuel - List.length level) (flat_map iter_child_nodes level)).
    + rewrite Hlevel. reflexivity.
    + rewrite Hlevel in *. simpl in *. lia.
    + lia.
Qed.

Lemma walk_breadth_first (n : node) : walk n = breadth_first n.
Proof.
  unfold walk, breadth_first.
  apply walk_queue_level_order; unfold count_forest; simpl; lia.
Qed.

Lemma flat_map_cons_perm {A : Type} (f : A -> list A) (q : list A) :
  Permutation (app q (flat_map f q)) (flat_map (fun x => x :: f x) q).
Proof.
  induction q as [|x q IH]; simpl; [constructor|].
  constructor.
  apply Permutation_trans with (app (f x) (app q (flat_map f q))).
  - apply Permutation_app_swap_app.
  - apply Permutation_app_head, IH.
Qed.

Lemma flat_map_nested {A B C : Type} (f : A -> list B) (g : B -> list C)
  (l : list A) :
  flat_map g (flat_map f l) = flat_map (fun x => flat_map g (f x)) l.
Proof.
  induction l as [|x l IH]; simpl; [reflexivity|].
  now rewrite flat_map_app, IH.
Qed.

Lemma level_order_preorder (depth : nat) :
  forall q : list node,
    count_forest q <= depth ->
    Permutation (level_order depth q) (flat_map preorder q).
Proof.
  induction depth as [|depth IH]; intros q Hd.
  - destruct q as [|n q]; [constructor|].
    change (count_forest (n :: q)) with (count_nodes n + count_forest q) in Hd.
    rewrite count_nodes_children in Hd. lia.
  - destruct q as [|n q]; [constructor|].
    pose proof (count_forest_children (n :: q)) as Hc.
    remember (n :: q) as level eqn:Hlevel.
    assert (Hstep : level_order (S depth) level
                    = app level (level_order depth (flat_map iter_child_nodes level)))
      by (rewrite Hlevel; reflexivity).
    rewrite Hstep.
    apply Permutation_trans
      with (app level (flat_map preorder (flat_map iter_child_nodes level))).
    + apply Permutation_app_head, IH.
      rewrite Hlevel in *. simpl in *. lia.
    + rewrite flat_map_nested.
      eapply Permutation_trans; [apply flat_map_cons_perm|].
      erewrite flat_map_ext; [apply Permutation_refl|].
      intros m. symmetry. apply preorder_children.
Qed.

Lemma walk_preorder (n : node) : Permutation (walk n) (preorder n).
Proof.
  rewrite walk_breadth_first. unfold breadth_first.
  rewrite <- (app_nil_r (preorder n)).
  change (app (preorder n) []) with (flat_map preorder [n]).
  apply level_order_preorder. unfold count_forest. simpl. lia.
Qed.

(** ** The recursions of lines 31 and 32 *)

Lemma in_list_max (x : nat) (l : list nat) : In x l -> x <= list_max l.
Proof.
  intros H. pose proof (proj1 (list_max_le l (list_max l)) (le_n _)) as Hall.
  rewrite Forall_forall in Hall. now apply Hall.
Qed.

Lemma height_value_nodes (v : value) :
  height_value v = list_max (map height (nodes_of_value v)).
Proof.
  destruct v as [| | | |items|m]; simpl; try reflexivity.
  - unfold nodes_of_items.
    induction items as [|item items IH]; simpl; [reflexivity|].
    rewrite map_app, list_max_app, <- IH.
    destruct item; simpl; lia.
  - lia.
Qed.

Lemma height_children (n : node) :
  height n = S (list_max (map height (iter_child_nodes n))).
Proof.
  destruct n as [c fs]. simpl. f_equal.
  unfold iter_child_nodes. simpl.
  induction fs as [|f fs IH]; simpl; [reflexivity|].
  now rewrite map_app, list_max_app, <- IH, height_value_nodes.
Qed.

Lemma height_child (n child : node) :
  In child (iter_child_nodes n) -> S (height child) <= height n.
Proof.
  intros H. rewrite (height_children n).
  apply le_n_S, in_list_max, in_map, H.
Qed.

Lemma for_each_raises {A S : Type} (body : S -> A -> outcome S)
  (P : exn -> Prop) (xs : list A) :
  (forall acc x e, In x xs -> body acc x = Raise e -> P e) ->
  forall acc e, for_each xs body acc = Raise e -> P e.
Proof.
  induction xs as [|x xs IH]; intros Hbody acc e; simpl.
  - discriminate.
  - destruct (body acc x) as [acc'|e'] eqn:Hx; simpl.
    + apply IH. intros a y e0 Hy. apply Hbody. now right.
    + intros [= <-]. apply (Hbody acc x); [now left|exact Hx].
Qed.

Lemma for_each_unit {A : Type} (g : A -> outcome unit) (xs : list A) :
  (forall x, In x xs -> g x = Return tt) ->
  for_each xs (fun _ x => g x) tt = Return tt.
Proof.
  induction xs as [|x xs IH]; intros H; simpl; [reflexivity|].
  rewrite (H x (or_introl eq_refl)). simpl.
  apply IH. intros y Hy. apply H. now right.
Qed.

Lemma _fix_fits (limit : nat) :
  forall n : node, height n <= limit -> _fix limit n = Return tt.
Proof.
  induction limit as [|limit IH]; intros n Hn.
  - rewrite (height_children n) in Hn. lia.
  - cbn [_fix]. apply for_each_unit. intros child Hc. apply IH.
    pose proof (height_child n child Hc). lia.
Qed.

Lemma _fix_raises (limit : nat) :
  forall (n : node) (e : exn), _fix limit n = Raise e -> e = recursion_error.
Proof.
  induction limit as [|limit IH]; intros n e; cbn [_fix].
  - now intros [= <-].
  - apply (for_each_raises _ (fun e => e = recursion_error)).
    intros acc child e0 _. apply IH.
Qed.

Lemma fix_missing_locations_fits (limit : nat) (n : node) :
  S (height n) <= limit -> fix_missing_locations limit n = Return n.
Proof.
  intros H. destruct limit as [|limit]; [lia|].
  cbn [fix_missing_locations]. rewrite _fix_fits by lia. reflexivity.
Qed.

Lemma fix_missing_locations_returns (limit : nat) (n n' : node) :
  fix_missing_locations limit n = Return n' -> n' = n.
Proof.
  destruct limit as [|limit]; cbn [fix_missing_locations]; [discriminate|].
  destruct (_fix limit n); simpl; [now intros [= <-]|discriminate].
Qed.

Lemma fix_missing_locations_raises (limit : nat) (n : node) (e : exn) :
  fix_missing_locations limit n = Raise e -> e = recursion_error.
Proof.
  destruct limit as [|limit]; cbn [fix_missing_locations];
    [now intros [= <-]|].
  destruct (_fix limit n) as [u|e'] eqn:E; simpl; [discriminate|].
  intros [= <-]. now apply (_fix_raises limit n).
Qed.

Lemma map_outcome_fits {A : Type} (f : A -> outcome A) (xs : list A) :
  (forall x, In x xs -> f x = Return x) -> map_outcome f xs = Return xs.
Proof.
  induction xs as [|x xs IH]; intros H; simpl; [reflexivity|].
  rewrite (H x (or_introl eq_refl)). simpl.
  rewrite IH; [reflexivity|]. intros y Hy. apply H. now right.
Qed.

Lemma map_outcome_returns {A : Type} (f : A -> outcome A) (xs : list A) :
  (forall x y, In x xs -> f x = Return y -> y = x) ->
  forall ys, map_outcome f xs = Return ys -> ys = xs.
Proof.
  induction xs as [|x xs IH]; intros H ys; simpl.
  - now intros [= <-].
  - destruct (f x) as [y|e] eqn:Hx; simpl; [|discriminate].
    destruct (map_outcome f xs) as [ys'|e] eqn:Hxs; simpl; [|discriminate].
    intros [= <-]. f_equal.
    + apply (H x y); [now left|exact Hx].
    + apply IH; [|reflexivity]. intros a b Ha. apply H. now right.
Qed.

Lemma map_outcome_raises {A B : Type} (f : A -> outcome B) (P : exn -> Prop)
  (xs : list A) :
  (forall x e, In x xs -> f x = Raise e -> P e) ->
  forall e, map_outcome f xs = Raise e -> P e.
Proof.
  induction xs as [|x xs IH]; intros H e; simpl.
  - discriminate.
  - destruct (f x) as [y|e'] eqn:Hx; simpl.
    + destruct (map_outcome f xs) as [ys|e''] eqn:Hxs; simpl; [discriminate|].
      intros [= <-]. apply IH; [|reflexivity].
      intros a b Ha. apply H. now right.
    + intros [= <-]. apply (H x); [now left|exact Hx].
Qed.

Lemma generic_visit_fits (visit : node -> outcome node) (n : node) :
  (forall child, In child (iter_child_nodes n) -> visit child = Return child) ->
  generic_visit visit n = Return n.
Proof.
  destruct n as [c fs]. unfold generic_visit, iter_child_nodes.
  cbn [node_fields node_cls]. intros H.
  rewrite (map_outcome_fits _ fs); [reflexivity|].
  intros [k v] Hf. cbn [fst snd].
  assert (Hv : forall child, In child (nodes_of_value v) ->
                 visit child = Return child).
  { intros child Hc. apply H. apply in_flat_map. now exists (k, v). }
  destruct v as [| | | |items|m]; cbn [visit_field bind]; try reflexivity.
  - rewrite (map_outcome_fits _ items); [reflexivity|].
    intros item Hi. destruct item as [| | | | |m]; cbn [visit_item]; try reflexivity.
    rewrite Hv; [reflexivity|].
    cbn [nodes_of_value]. unfold nodes_of_items. apply in_flat_map.
    exists (VNode m). split; [exact Hi|now left].
  - rewrite Hv; [reflexivity|now left].
Qed.

Lemma generic_visit_returns (visit : node -> outcome node) (n n' : node) :
  (forall child child', visit child = Return child' -> child' = child) ->
  generic_visit visit n = Return n' -> n' = n.
Proof.
  destruct n as [c fs]. unfold generic_visit. cbn [node_fields node_cls].
  intros H.
  destruct (map_outcome _ fs) as [fs'|e] eqn:E; simpl; [|discriminate].
  intros [= <-]. f_equal.
  apply (map_outcome_returns _ fs) in E; [exact E|].
  intros [k v] [k' v'] _. cbn [fst snd].
  destruct v as [| | | |items|m]; cbn [visit_field bind];
    try (now intros [= <- <-]).
  - destruct (map_outcome (visit_item visit) items) as [items'|e'] eqn:Ei;
      simpl; [|discriminate].
    intros [= <- <-]. f_equal. f_equal.
    apply (map_outcome_returns _ items) in Ei; [exact Ei|].
    intros item item' _.
    destruct item as [| | | | |m]; cbn [visit_item bind];
      try (now intros [= <-]).
    destruct (visit m) as [m'|e''] eqn:Em; simpl; [|discriminate].
    intros [= <-]. f_equal. now apply (H m).
  - destruct (visit m) as [m'|e'] eqn:Em; simpl; [|discriminate].
    intros [= <- <-]. f_equal. f_equal. now apply (H m).
Qed.

Lemma generic_visit_raises (visit : node -> outcome node) (P : exn -> Prop)
  (n : node) :
  (forall child e, visit child = Raise e -> P e) ->
  forall e, generic_visit visit n = Raise e -> P e.
Proof.
  destruct n as [c fs]. unfold generic_visit. cbn [node_fields node_cls].
  intros H e.
  destruct (map_outcome _ fs) as [fs'|e'] eqn:E; simpl; [discriminate|].
  intros [= <-]. revert E. apply map_outcome_raises.
  intros [k v] e0 _. cbn [fst snd].
  destruct v as [| | | |items|m]; cbn [visit_field bind]; try discriminate.
  - destruct (map_outcome (visit_item visit) items) as [items'|e1] eqn:Ei;
      simpl; [discriminate|].
    intros [= <-]. revert Ei. apply map_outcome_raises.
    intros item e2 _.
    destruct item as [| | | | |m]; cbn [visit_item bind]; try discriminate.
    destruct (visit m) as [m'|e3] eqn:Em; simpl; [discriminate|].
    intros [= <-]. now apply (H m).
  - destruct (visit m) as [m'|e1] eqn:Em; simpl; [discriminate|].
    intros [= <-]. now apply (H m).
Qed.

Lemma NodeTransformer_visit_fits (limit : nat) :
  forall n : node,
    2 * height n <= limit -> NodeTransformer_visit limit n = Return n.
Proof.
  induction limit as [limit IH] using lt_wf_ind. intros n Hn.
  pose proof (height_children n) as Hh.
  destruct limit as [|[|limit]]; [lia|lia|].
  cbn [NodeTransformer_visit]. apply generic_visit_fits.
  intros child Hc. apply IH; [lia|].
  pose proof (height_child n child Hc). lia.
Qed.

Lemma NodeTransformer_visit_returns (limit : nat) :
  forall n n' : node, NodeTransformer_visit limit n = Return n' -> n' = n.
Proof.
  induction limit as [limit IH] using lt_wf_ind. intros n n'.
  destruct limit as [|[|limit]]; cbn [NodeTransformer_visit];
    [discriminate|discriminate|].
  apply generic_visit_returns. intros child child'. apply IH. lia.
Qed.

Lemma NodeTransformer_visit_raises (limit : nat) :
  forall (n : node) (e : exn),
    NodeTransformer_visit limit n = Raise e -> e = recursion_error.
Proof.
  induction limit as [limit IH] using lt_wf_ind. intros n e.
  destruct limit as [|[|limit]]; cbn [NodeTransformer_visit];
    [now intros [= <-]|now intros [= <-]|].
  apply (generic_visit_raises _ (fun e => e = recursion_error)).
  intros child e0. apply IH. lia.
Qed.

(** ** The loops of the services *)

Lemma getattr_lookup (n : node) (name : string) (v : value) :
  lookup name (node_fields n) = Some v -> getattr n name = Return v.
Proof. unfold getattr. now intros ->. Qed.

Lemma has_field_lookup (n : node) (name : string) :
  has_field n name = true -> exists v, lookup name (node_fields n) = Some v.
Proof.
  unfold has_field. destruct (lookup name (node_fields n)) as [v|]; [|discriminate].
  now exists v.
Qed.

Lemma analyze_step_no_issue (issues : list string) (n : node) :
  function_ok n = true ->
  analyze_step issues n = Return issues.
Proof.
  unfold function_ok, analyze_step, has_body, getattr.
  destruct (isinstance n "FunctionDef"); simpl; [|reflexivity].
  destruct (lookup "body" (node_fields n)) as [v|]; [|discriminate].
  simpl. now intros ->.
Qed.

Lemma analyze_loop_no_issue (ns : list node) :
  forall issues : list string,
    forallb function_ok ns = true ->
    for_each ns analyze_step issues = Return issues.
Proof.
  induction ns as [|n ns IH]; intros issues H; simpl in *; [reflexivity|].
  apply andb_true_iff in H as [Hn Hns].
  rewrite analyze_step_no_issue by exact Hn. simpl. now apply IH.
Qed.

Lemma analyze_step_findings (issues : list string) (n : node) :
  fields_present n = true ->
  analyze_step issues n = Return (app issues (findings n)).
Proof.
  unfold fields_present, analyze_step, findings, has_body, getattr.
  intros H. apply andb_true_iff in H as [_ H].
  destruct (isinstance n "FunctionDef"); simpl in *;
    [|now rewrite app_nil_r].
  apply andb_true_iff in H as [Hb Hn].
  apply has_field_lookup in Hb as [b Hb], Hn as [name Hn].
  rewrite Hb, Hn. simpl.
  destruct (truthy b); simpl; [now rewrite app_nil_r|reflexivity].
Qed.

Lemma analyze_loop_findings (ns : list node) :
  forall issues : list string,
    forallb fields_present ns = true ->
    for_each ns analyze_step issues
    = Return (app issues (flat_map findings ns)).
Proof.
  induction ns as [|n ns IH]; intros issues H; simpl in *.
  - now rewrite app_nil_r.
  - apply andb_true_iff in H as [Hn Hns].
    rewrite analyze_step_findings by exact Hn. simpl.
    rewrite IH by exact Hns. now rewrite app_assoc.
Qed.

Lemma is_print_call_total (n : node) :
  fields_present n = true -> is_print_call n = Return (print_call n).
Proof.
  unfold fields_present, is_print_call, print_call, getattr.
  intros H. apply andb_true_iff in H as [H _].
  destruct (isinstance n "Call"); simpl in *; [|reflexivity].
  apply andb_true_iff in H as [_ H].
  destruct (lookup "func" (node_fields n)) as [[| | | | |f]|];
    simpl; try reflexivity; try discriminate.
  destruct (isinstance f "Name"); simpl in *; [|reflexivity].
  apply has_field_lookup in H as [id Hid]. now rewrite Hid.
Qed.

(** An iteration that returns leaves [tree] as it is. *)
Lemma refactor_step_keeps_tree (frames : nat) (st st' : locals) (n : node) :
  refactor_step frames st n = Return st' -> l_tree st' = l_tree st.
Proof.
  unfold refactor_step.
  destruct (is_print_call n) as [hit|e1]; simpl; [|discriminate].
  destruct hit; [|now intros [= <-]].
  destruct (getattr n "args") as [args|e2]; simpl; [|discriminate].
  destruct (fix_missing_locations frames _) as [n1|e3]; simpl; [|discriminate].
  destruct (NodeTransformer_visit frames n1) as [n2|e4]; simpl;
    [|discriminate].
  now intros [= <-].
Qed.

Lemma refactor_loop_keeps_tree (frames : nat) (ns : list node) :
  forall st st' : locals,
    for_each ns (refactor_step frames) st = Return st' ->
    l_tree st' = l_tree st.
Proof.
  induction ns as [|n ns IH]; intros st st'; simpl.
  - now intros [= <-].
  - destruct (refactor_step frames st n) as [st1|e] eqn:E; simpl;
      [|discriminate].
    intros H. rewrite (IH _ _ H).
    now apply (refactor_step_keeps_tree frames st st1 n).
Qed.

(** What an iteration does on a call of the bare name [print]: with the
    frames for the visit of the node it builds, it stores that node. *)
Lemma refactor_step_print (frames : nat) (st : locals) (n : node)
  (args : value) :
  fields_present n = true ->
  print_call n = true ->
  lookup "args" (node_fields n) = Some args ->
  2 * height (logging_info_call args) <= frames ->
  refactor_step frames st n
  = Return (mkLocals (l_tree st) (Some (logging_info_call args))).
Proof.
  intros Hf Hp Ha Hh. unfold refactor_step.
  rewrite (is_print_call_total n Hf), Hp. cbn [bind].
  rewrite (getattr_lookup n "args" args Ha). cbn [bind].
  unfold copy_location.
  pose proof (height_children (logging_info_call args)) as Hpos.
  rewrite fix_missing_locations_fits by lia. cbn [bind].
  rewrite NodeTransformer_visit_fits by exact Hh. reflexivity.
Qed.

(** An iteration that returns on a call of [print] has stored the node
    built for it. *)
Lemma refactor_step_print_returns (frames : nat) (st st' : locals) (n : node)
  (args : value) :
  fields_present n = true ->
  print_call n = true ->
  lookup "args" (node_fields n) = Some args ->
  refactor_step frames st n = Return st' ->
  st' = mkLocals (l_tree st) (Some (logging_info_call args)).
Proof.
  intros Hf Hp Ha. unfold refactor_step.
  rewrite (is_print_call_total n Hf), Hp. cbn [bind].
  rewrite (getattr_lookup n "args" args Ha). cbn [bind].
  unfold copy_location.
  destruct (fix_missing_locations frames _) as [n1|e] eqn:E1; simpl;
    [|discriminate].
  apply fix_missing_locations_returns in E1. subst n1.
  destruct (NodeTransformer_visit frames _) as [n2|e] eqn:E2; simpl;
    [|discriminate].
  apply NodeTransformer_visit_returns in E2. subst n2.
  now intros [= <-].
Qed.

Lemma print_call_has_args (n : node) :
  fields_present n = true -> print_call n = true ->
  exists args, lookup "args" (node_fields n) = Some args.
Proof.
  intros H Hp. apply has_field_lookup.
  unfold fields_present in H. unfold print_call in Hp.
  apply andb_true_iff in H as [H _].
  destruct (isinstance n "Call"); simpl in *; [|discriminate].
  now apply andb_true_iff in H as [H _].
Qed.

(** A node the loop of [refactor_code] meets and does not match is left with
    the locals as they were. *)
Lemma refactor_step_skip (frames : nat) (st : locals) (n : node) :
  fields_present n = true -> print_call n = false ->
  refactor_step frames st n = Return st.
Proof.
  intros H Hp. unfold refactor_step.
  rewrite is_print_call_total by exact H. now rewrite Hp.
Qed.

(** On a node that carries its fields, an iteration raises only
    [RecursionError], and only on a call of [print]. *)
Lemma refactor_step_raises_print (frames : nat) (st : locals) (n : node)
  (e : exn) :
  fields_present n = true ->
  refactor_step frames st n = Raise e ->
  e = recursion_error /\ print_call n = true.
Proof.
  intros Hf. destruct (print_call n) eqn:Hp.
  - destruct (print_call_has_args n Hf Hp) as [args Ha].
    unfold refactor_step.
    rewrite (is_print_call_total n Hf), Hp. cbn [bind].
    rewrite (getattr_lookup n "args" args Ha). cbn [bind].
    destruct (fix_missing_locations frames _) as [n1|e1] eqn:E1; simpl.
    + destruct (NodeTransformer_visit frames n1) as [n2|e2] eqn:E2; simpl;
        [discriminate|].
      intros [= <-]. split; [|reflexivity].
      now apply (NodeTransformer_visit_raises frames n1).
    + intros [= <-]. split; [|reflexivity].
      now apply (fix_missing_locations_raises frames _ e1 E1).
  - rewrite (refactor_step_skip frames st n Hf Hp). discriminate.
Qed.

(** Whatever the node, an iteration raises only [AttributeError] or
    [RecursionError]. *)
Lemma refactor_step_raises (frames : nat) (st : locals) (n : node) (e : exn) :
  refactor_step frames st n = Raise e ->
  exn_cls e = AttributeError \/ e = recursion_error.
Proof.
  unfold refactor_step, is_print_call, getattr.
  destruct (isinstance n "Call"); simpl; [|discriminate].
  destruct (lookup "func" (node_fields n)) as [func|]; simpl;
    [|intros [= <-]; now left].
  assert (Hbody :
    (args <- match lookup "args" (node_fields n) with
             | Some v => Return v
             | None =>
                 Raise (mkExn AttributeError
                          ("'" ++ node_cls n
                           ++ "' object has no attribute '" ++ "args" ++ "'"))
             end ;;
     new_node <- fix_missing_locations frames
                   (copy_location (logging_info_call args) n) ;;
     new_node0 <- NodeTransformer_visit frames new_node ;;
     Return (mkLocals (l_tree st) (Some new_node0))) = Raise e ->
    exn_cls e = AttributeError \/ e = recursion_error).
  { destruct (lookup "args" (node_fields n)) as [args|]; simpl;
      [|intros [= <-]; now left].
    destruct (fix_missing_locations frames _) as [n1|e1] eqn:E1; simpl.
    - destruct (NodeTransformer_visit frames n1) as [n2|e2] eqn:E2; simpl;
        [discriminate|].
      intros [= <-]. right. now apply (NodeTransformer_visit_raises frames n1).
    - intros [= <-]. right.
      now apply (fix_missing_locations_raises frames _ e1 E1). }
  destruct func as [| | | | |f]; simpl; try discriminate.
  destruct (isinstance f "Name"); simpl; [|discriminate].
  destruct (lookup "id" (node_fields f)) as [id|]; simpl;
    [|intros [= <-]; now left].
  destruct (eq_str id "print"); [exact Hbody|discriminate].
Qed.

(** An iteration has the frames it needs: it returns. *)
Lemma refactor_step_fits (frames : nat) (st : locals) (n : node) :
  fields_present n = true -> step_fits frames n = true ->
  exists st', refactor_step frames st n = Return st'
              /\ l_tree st' = l_tree st.
Proof.
  intros Hf Hs. destruct (print_call n) eqn:Hp.
  - destruct (print_call_has_args n Hf Hp) as [args Ha].
    unfold step_fits in Hs. rewrite Hp, Ha in Hs. cbn [implb] in Hs.
    apply Nat.leb_le in Hs.
    rewrite (refactor_step_print frames st n args Hf Hp Ha Hs).
    eexists. split; reflexivity.
  - exists st. split; [|reflexivity]. now apply refactor_step_skip.
Qed.

Lemma refactor_loop_tree (frames : nat) (ns : list node) :
  forall st : locals,
    forallb fields_present ns = true ->
    forallb (step_fits frames) ns = true ->
    exists st', for_each ns (refactor_step frames) st = Return st'
                /\ l_tree st' = l_tree st.
Proof.
  induction ns as [|n ns IH]; intros st H Hs; simpl in *.
  - now exists st.
  - apply andb_true_iff in H as [Hn Hns].
    apply andb_true_iff in Hs as [Hsn Hsns].
    destruct (refactor_step_fits frames st n Hn Hsn) as [st1 [E1 T1]].
    rewrite E1. simpl.
    destruct (IH st1 Hns Hsns) as [st2 [E2 T2]].
    exists st2. split; [exact E2|congruence].
Qed.

(** Without a call of [print], every iteration has the frames it needs. *)
Lemma no_print_fits (frames : nat) (ns : list node) :
  existsb print_call ns = false -> forallb (step_fits frames) ns = true.
Proof.
  induction ns as [|n ns IH]; simpl; [reflexivity|].
  intros H. apply orb_false_iff in H as [Hn Hns].
  unfold step_fits at 1. rewrite Hn. simpl. now apply IH.
Qed.





(** The loop of [refactor_code] on a tree whose nodes carry their fields
    raises only [RecursionError]. *)
Lemma refactor_loop_raises (frames : nat) (ns : list node) :
  forallb fields_present ns = true ->
  forall (st : locals) (e : exn),
    for_each ns (refactor_step frames) st = Raise e ->
    e = recursion_error /\ existsb print_call ns = true.
Proof.
  induction ns as [|n ns IH]; intros H st e; simpl in *; [discriminate|].
  apply andb_true_iff in H as [Hn Hns].
  destruct (refactor_step frames st n) as [st1|e1] eqn:E; simpl.
  - intros Hl. destruct (IH Hns st1 e Hl) as [He Hex].
    split; [exact He|]. rewrite Hex. apply orb_true_r.
  - intros [= <-].
    destruct (refactor_step_raises_print frames st n e1 Hn E) as [He Hp].
    split; [exact He|]. now rewrite Hp.
Qed.

Lemma logging_info_not_print (n : node) :
  logging_info_callee n = true -> print_call n = false.
Proof.
  unfold logging_info_callee, print_call.
  destruct (isinstance n "Call"); simpl; [|reflexivity].
  destruct (lookup "func" (node_fields n)) as [[| | | | |f]|];
    try discriminate.
  unfold isinstance.
  destruct (String.eqb_spec (node_cls f) "Attribute") as [->|]; simpl;
    [reflexivity|discriminate].
Qed.

(** The whole of [refactor_code] on a tree whose nodes carry their fields,
    when the loop has the frames it needs. *)
Lemma refactor_code_unparse (parse : string -> outcome node)
  (unparse : node -> outcome string) (frames : nat) (code : string)
  (tree : node) :
  parse code = Return tree -> well_formed tree = true ->
  visits_fit frames tree = true ->
  refactor_code parse unparse frames code = refactor_report (unparse tree).
Proof.
  intros Hp Hwf Hfit. unfold refactor_code, refactor_body, refactor_report.
  rewrite Hp. simpl.
  destruct (refactor_loop_tree frames (walk tree) (mkLocals tree None)
              Hwf Hfit) as [st [E T]].
  rewrite E. simpl. simpl in T. now rewrite T.
Qed.

(** Without a call of [print], the loop leaves the locals as they are. *)
Lemma refactor_loop_no_print (frames : nat) (ns : list node) (st : locals) :
  forallb fields_present ns = true ->
  existsb print_call ns = false ->
  for_each ns (refactor_step frames) st = Return st.
Proof.
  induction ns as [|n ns IH]; simpl; [reflexivity|].
  intros Hf Hp. apply andb_true_iff in Hf as [Hn Hns].
  apply orb_false_iff in Hp as [Hpn Hpns].
  rewrite (refactor_step_skip frames st n Hn Hpn). simpl. now apply IH.
Qed.

(** The whole of [refactor_code] when the loop returns. *)
Lemma refactor_code_loop_returns (parse : string -> outcome node)
  (unparse : node -> outcome string) (frames : nat) (code : string)
  (tree : node) (st : locals) :
  parse code = Return tree ->
  for_each (walk tree) (refactor_step frames) (mkLocals tree None)
  = Return st ->
  refactor_code parse unparse frames code = refactor_report (unparse tree).
Proof.
  intros Hp Hl. unfold refactor_code, refactor_body, refactor_report.
  rewrite Hp. simpl. rewrite Hl. simpl.
  pose proof (refactor_loop_keeps_tree frames _ _ _ Hl) as T. simpl in T.
  now rewrite T.
Qed.

(** The whole of [refactor_code] when the loop raises. *)
Lemma refactor_code_loop_raises (parse : string -> outcome node)
  (unparse : node -> outcome string) (frames : nat) (code : string)
  (tree : node) (e : exn) :
  parse code = Return tree ->
  for_each (walk tree) (refactor_step frames) (mkLocals tree None) = Raise e ->
  refactor_code parse unparse frames code
  = Return ("Refactoring error: " ++ exn_str e).
Proof.
  intros Hp Hl. unfold refactor_code, refactor_body. rewrite Hp. simpl.
  rewrite Hl. simpl.
  assert (He : is_Exception e = true).
  { assert (H : exn_cls e = AttributeError \/ e = recursion_error).
    { revert Hl. apply (for_each_raises (refactor_step frames)
                          (fun e => exn_cls e = AttributeError
                                    \/ e = recursion_error)).
      intros acc x e0 _. apply refactor_step_raises. }
    unfold is_Exception. destruct H as [-> | ->]; reflexivity. }
  now rewrite He.
Qed.

Lemma analyze_code_no_issue (parse : string -> outcome node)
  (code : string) (tree : node) :
  parse code = Return tree -> no_empty_function tree = true ->
  analyze_code parse code = Return "No issues found".
Proof.
  intros Hp Hne. unfold analyze_code, analyze_body.
  rewrite Hp. simpl.
  now rewrite (analyze_loop_no_issue (walk tree) [] Hne).
Qed.

(** ** The trees the fragment's parser builds

    Every node carries the fields of its class, and no function definition
    has an empty body. *)

Module FragmentFacts.
Import Fragment.

Lemma embed_expr_ok : forall e : pexpr, Forall node_ok (preorder (embed_expr e)).
Proof.
  fix IH 1. intros [id|e attr|f args].
  - simpl. repeat constructor.
  - simpl. constructor; [split; reflexivity|]. rewrite ?app_nil_r.
    apply Forall_app. split; [apply IH|]. repeat constructor.
  - simpl. constructor; [split; [reflexivity|now destruct f]|].
    rewrite ?app_nil_r.
    apply Forall_app. split; [apply IH|].
    induction args as [|a args IHa]; simpl; [constructor|].
    apply Forall_app. split; [apply IH|exact IHa].
Qed.

Lemma embed_simple_ok (s : simple) : Forall node_ok (preorder (embed_simple s)).
Proof.
  destruct s as [|e]; simpl; [repeat constructor|].
  constructor; [split; reflexivity|]. rewrite ?app_nil_r. apply embed_expr_ok.
Qed.

Lemma embed_stmt_ok (s : pstmt) : Forall node_ok (preorder (embed_stmt s)).
Proof.
  destruct s as [s|name first rest]; [apply embed_simple_ok|].
  cbn [embed_stmt preorder preorder_value flat_map snd map no_arguments].
  constructor; [split; reflexivity|].
  rewrite ?app_nil_r. cbn [app].
  constructor; [split; reflexivity|].
  apply Forall_app. split; [apply embed_simple_ok|].
  induction rest as [|b rest IHr]; simpl; [constructor|].
  apply Forall_app. split; [apply embed_simple_ok|exact IHr].
Qed.

Lemma embed_module_ok (p : list pstmt) :
  Forall node_ok (preorder (embed_module p)).
Proof.
  unfold embed_module. simpl. constructor; [split; reflexivity|].
  rewrite ?app_nil_r.
  induction p as [|s p IHp]; simpl; [constructor|].
  apply Forall_app. split; [apply embed_stmt_ok|exact IHp].
Qed.

Lemma parse_node_ok (code : string) (tree : node) :
  Fragment.parse code = Return tree ->
  forall n : node, In n (walk tree) -> node_ok n.
Proof.
  unfold Fragment.parse.
  destruct (parse_program code) as [p|]; [|discriminate].
  intros [= <-] n Hn.
  apply (Permutation_in _ (walk_preorder _)) in Hn.
  pose proof (embed_module_ok p) as H.
  rewrite Forall_forall in H. now apply H.
Qed.

Lemma parse_no_empty_function (code : string) (tree : node) :
  Fragment.parse code = Return tree -> no_empty_function tree = true.
Proof.
  intros Hp. apply forallb_forall. intros n Hn.
  now apply (parse_node_ok code tree Hp n).
Qed.

Lemma parse_well_formed (code : string) (tree : node) :
  Fragment.parse code = Return tree -> well_formed tree = true.
Proof.
  intros Hp. apply forallb_forall. intros n Hn.
  now apply (parse_node_ok code tree Hp n).
Qed.

End FragmentFacts.

(** ** The fragment's parser reads back what its printer writes *)

Module FragmentRoundTrip.
Import Fragment FragmentText.

(** *** Texts and identifiers *)

Lemma toks_expr_call f args k :
  toks_expr (PCall f args) k = toks_expr f (TLParen :: toks_args args (TRParen :: k)).
Proof. reflexivity. Qed.

Lemma show_expr_call f args r :
  show_expr (PCall f args) r = show_expr f ("(" ++ show_args args (")" ++ r)).
Proof. reflexivity. Qed.

Lemma append_nil_r (s : string) : s ++ "" = s.
Proof. induction s as [|c s IH]; simpl; [reflexivity|now rewrite IH]. Qed.

Lemma append_assoc (a b c : string) : (a ++ b) ++ c = a ++ (b ++ c).
Proof. induction a as [|x a IH]; simpl; [reflexivity|now rewrite IH]. Qed.

Lemma append_snoc_nonempty (a : string) (c : ascii) :
  a ++ String c "" <> "".
Proof. destruct a; discriminate. Qed.

Lemma flush_nonempty w ts : w <> "" -> flush w ts = TName w :: ts.
Proof. destruct w; [congruence|reflexivity]. Qed.

(** *** The lexer on the text of an expression *)

Lemma lex_delimited (r acc : string) :
  delimited r = true -> lex r acc = option_map (flush acc) (lex r "").
Proof.
  destruct r as [|c r]; simpl; [reflexivity|].
  unfold is_ident_char. intros H. apply negb_true_iff, orb_false_iff in H as [Hs Hd].
  rewrite Hs, Hd.
  destruct (punct c) as [p|]; [|reflexivity].
  destruct (lex r "") as [ts|]; reflexivity.
Qed.

Lemma lex_chars (w : string) :
  forall acc r : string,
    all_chars is_ident_char w = true ->
    acc <> "" \/ lexical w = true \/ w = "" ->
    lex (w ++ r) acc = lex r (acc ++ w).
Proof.
  induction w as [|c w IH]; intros acc r Hall Hacc; simpl.
  - now rewrite append_nil_r.
  - simpl in Hall. apply andb_true_iff in Hall as [Hc Hw].
    assert (Hnext : lex (w ++ r) (acc ++ String c "") = lex r (acc ++ String c w)).
    { rewrite IH; [|exact Hw|left; apply append_snoc_nonempty].
      now rewrite append_assoc. }
    destruct (is_ident_start c) eqn:Hs; [exact Hnext|].
    unfold is_ident_char in Hc. rewrite Hs in Hc. simpl in Hc. rewrite Hc.
    destruct acc as [|a acc]; [|exact Hnext].
    destruct Hacc as [H|[H|H]]; [congruence| |discriminate].
    simpl in H. rewrite Hs in H. discriminate.
Qed.

Lemma lexical_chars (w : string) :
  lexical w = true -> all_chars is_ident_char w = true.
Proof.
  destruct w as [|c w]; [discriminate|]. simpl.
  intros H. apply andb_true_iff in H as [Hs Hw].
  unfold is_ident_char at 1. now rewrite Hs, Hw.
Qed.

Lemma lexical_nonempty (w : string) : lexical w = true -> w <> "".
Proof. destruct w; [discriminate|discriminate]. Qed.

Lemma lex_word (w r : string) (ts : list token) :
  lexical w = true -> delimited r = true -> lex r "" = Some ts ->
  lex (w ++ r) "" = Some (TName w :: ts).
Proof.
  intros Hw Hr Hts.
  rewrite lex_chars; [|now apply lexical_chars|now right; left].
  simpl. rewrite lex_delimited by exact Hr. rewrite Hts. simpl.
  f_equal. apply flush_nonempty. now apply lexical_nonempty.
Qed.

Lemma lex_punct (c : ascii) (r : string) (p ts : list token) :
  is_ident_char c = false -> punct c = Some p -> lex r "" = Some ts ->
  lex (String c r) "" = Some (app p ts).
Proof.
  intros Hc Hp Hts. simpl. unfold is_ident_char in Hc.
  apply orb_false_iff in Hc as [Hs Hd]. now rewrite Hs, Hd, Hp, Hts.
Qed.

Lemma valid_name_lexical w : valid_name w = true -> lexical w = true.
Proof. unfold valid_name. intros H. now apply andb_true_iff in H as [H _]. Qed.

Lemma lex_show_expr :
  forall (e : pexpr) (r : string) (ts : list token),
    valid_expr e = true -> delimited r = true -> lex r "" = Some ts ->
    lex (show_expr e r) "" = Some (toks_expr e ts).
Proof.
  fix IH 1. intros [id|e attr|f args] r ts Hv Hr Hts.
  - simpl in *. apply lex_word; [now apply valid_name_lexical|exact Hr|exact Hts].
  - simpl in Hv. apply andb_true_iff in Hv as [He Ha].
    simpl. apply IH; [exact He|reflexivity|].
    apply (lex_punct "." _ [TDot]); [reflexivity|reflexivity|].
    apply lex_word; [now apply valid_name_lexical|exact Hr|exact Hts].
  - simpl in Hv. apply andb_true_iff in Hv as [Hf Hargs].
    rewrite show_expr_call, toks_expr_call.
    apply IH; [exact Hf|reflexivity|].
    apply (lex_punct "(" _ [TLParen]); [reflexivity|reflexivity|].
    assert (Hclose : lex (")" ++ r) "" = Some (TRParen :: ts))
      by (apply (lex_punct ")" _ [TRParen]); [reflexivity|reflexivity|exact Hts]).
    induction args as [|a args IHargs]; [exact Hclose|].
    simpl in Hargs. apply andb_true_iff in Hargs as [Ha Hargs].
    destruct args as [|b args].
    + apply IH; [exact Ha|reflexivity|exact Hclose].
    + change (show_args (a :: b :: args) (")" ++ r))
        with (show_expr a (", " ++ show_args (b :: args) (")" ++ r))).
      change (toks_args (a :: b :: args) (TRParen :: ts))
        with (toks_expr a (TComma :: toks_args (b :: args) (TRParen :: ts))).
      apply IH; [exact Ha|reflexivity|].
      apply (lex_punct "," _ [TComma]); [reflexivity|reflexivity|].
      apply (lex_punct " " _ []); [reflexivity|reflexivity|].
      apply IHargs. exact Hargs.
Qed.

(** *** The expression parser on the tokens of an expression *)

Lemma parse_expr_S fuel ts :
  parse_expr (S fuel) ts =
  match ts with
  | TName x :: rest =>
      if is_keyword x then None else parse_postfix fuel (PName x) rest
  | _ => None
  end.
Proof. reflexivity. Qed.

Lemma parse_postfix_S fuel e ts :
  parse_postfix (S fuel) e ts =
  match ts with
  | TDot :: TName a :: rest =>
      if is_keyword a then None else parse_postfix fuel (PAttr e a) rest
  | TDot :: _ => None
  | TLParen :: TRParen :: rest => parse_postfix fuel (PCall e []) rest
  | TLParen :: rest =>
      match parse_args fuel rest with
      | Some (args, rest') => parse_postfix fuel (PCall e args) rest'
      | None => None
      end
  | _ => Some (e, ts)
  end.
Proof. reflexivity. Qed.

Lemma parse_args_S fuel ts :
  parse_args (S fuel) ts =
  match parse_expr fuel ts with
  | Some (e, TRParen :: rest) => Some ([e], rest)
  | Some (e, TComma :: TRParen :: rest) => Some ([e], rest)
  | Some (e, TComma :: rest) =>
      match parse_args fuel rest with
      | Some (es, rest') => Some (e :: es, rest')
      | None => None
      end
  | _ => None
  end.
Proof. reflexivity. Qed.

Lemma parse_mono_S (fuel : nat) :
  (forall ts r, parse_expr fuel ts = Some r -> parse_expr (S fuel) ts = Some r)
  /\ (forall e ts r,
         parse_postfix fuel e ts = Some r -> parse_postfix (S fuel) e ts = Some r)
  /\ (forall ts r, parse_args fuel ts = Some r -> parse_args (S fuel) ts = Some r).
Proof.
  induction fuel as [|fuel [IHe [IHp IHa]]].
  - repeat split; intros; discriminate.
  - repeat split.
    + intros ts r. rewrite !parse_expr_S.
      destruct ts as [|[x| | | | |] rest]; try discriminate.
      destruct (is_keyword x); [discriminate|]. apply IHp.
    + intros e ts r. rewrite !parse_postfix_S.
      destruct ts as [|[x| | | | |] rest]; try (intros H; exact H).
      * destruct rest as [|[| | | | |] rest]; try (intros H; exact H).
        -- destruct (parse_args fuel []) as [[args rest']|] eqn:E;
             [|discriminate].
           rewrite (IHa _ _ E). apply IHp.
        -- destruct (parse_args fuel (TName s :: rest)) as [[args rest']|] eqn:E;
             [|discriminate].
           rewrite (IHa _ _ E). apply IHp.
        -- destruct (parse_args fuel (TLParen :: rest)) as [[args rest']|] eqn:E;
             [|discriminate].
           rewrite (IHa _ _ E). apply IHp.
        -- apply IHp.
        -- destruct (parse_args fuel (TComma :: rest)) as [[args rest']|] eqn:E;
             [|discriminate].
           rewrite (IHa _ _ E). apply IHp.
        -- destruct (parse_args fuel (TDot :: rest)) as [[args rest']|] eqn:E;
             [|discriminate].
           rewrite (IHa _ _ E). apply IHp.
        -- destruct (parse_args fuel (TColon :: rest)) as [[args rest']|] eqn:E;
             [|discriminate].
           rewrite (IHa _ _ E). apply IHp.
      * destruct rest as [|[a| | | | |] rest]; try (intros H; exact H).
        destruct (is_keyword a); [discriminate|]. apply IHp.
    + intros ts r. rewrite !parse_args_S.
      destruct (parse_expr fuel ts) as [[e rest]|] eqn:E; [|discriminate].
      rewrite (IHe _ _ E).
      destruct rest as [|[x| | | | |] rest]; try discriminate.
      * intros H; exact H.
      * destruct rest as [|[x| | | | |] rest];
          try (intros H; exact H);
          match goal with
          | |- context [parse_args fuel ?l] =>
              destruct (parse_args fuel l) as [[es rest']|] eqn:E2;
                [rewrite (IHa _ _ E2); intros H; exact H|discriminate]
          end.
Qed.

Lemma parse_postfix_mono (fuel fuel' : nat) e ts r :
  fuel <= fuel' -> parse_postfix fuel e ts = Some r ->
  parse_postfix fuel' e ts = Some r.
Proof.
  induction 1 as [|m _ IH]; [easy|].
  intros H. now apply parse_mono_S, IH.
Qed.

Lemma parse_expr_mono (fuel fuel' : nat) ts r :
  fuel <= fuel' -> parse_expr fuel ts = Some r ->
  parse_expr fuel' ts = Some r.
Proof.
  induction 1 as [|m _ IH]; [easy|].
  intros H. now apply parse_mono_S, IH.
Qed.

Lemma parse_args_mono (fuel fuel' : nat) ts r :
  fuel <= fuel' -> parse_args fuel ts = Some r ->
  parse_args fuel' ts = Some r.
Proof.
  induction 1 as [|m _ IH]; [easy|].
  intros H. now apply parse_mono_S, IH.
Qed.

Lemma toks_expr_head :
  forall (e : pexpr) (k : list token),
    exists x k', toks_expr e k = TName x :: k'.
Proof.
  induction e as [id|e IH attr|f IH args]; intros k.
  - now exists id, k.
  - apply IH.
  - rewrite toks_expr_call. apply IH.
Qed.

Lemma valid_name_not_keyword w : valid_name w = true -> is_keyword w = false.
Proof.
  unfold valid_name. intros H. apply andb_true_iff in H as [_ H].
  now apply negb_true_iff in H.
Qed.

Lemma pexpr_ind' (P : pexpr -> Prop) :
  (forall id, P (PName id)) ->
  (forall e attr, P e -> P (PAttr e attr)) ->
  (forall f args, P f -> Forall P args -> P (PCall f args)) ->
  forall e, P e.
Proof.
  intros Hn Ha Hc. fix IH 1. intros [id|e attr|f args].
  - apply Hn.
  - apply Ha, IH.
  - apply Hc; [apply IH|].
    induction args as [|a args IHargs]; constructor; [apply IH|exact IHargs].
Qed.

Lemma toks_args_head (a : pexpr) (args : list pexpr) (k : list token) :
  exists x k', toks_args (a :: args) k = TName x :: k'.
Proof.
  destruct args as [|b args].
  - apply toks_expr_head.
  - change (toks_args (a :: b :: args) k)
      with (toks_expr a (TComma :: toks_args (b :: args) k)).
    apply toks_expr_head.
Qed.

Lemma parse_toks_args (args : list pexpr) :
  Forall parses args ->
  forall (a : pexpr) (ts : list token) (F : nat),
    parses a ->
    cost_args (a :: args) <= F ->
    parse_args F (toks_args (a :: args) (TRParen :: ts)) = Some (a :: args, ts).
Proof.
  induction 1 as [|b args Hb Hargs IH]; intros a ts F Ha HF.
  - unfold cost_args in HF. simpl in HF.
    destruct F as [|F]; [lia|]. rewrite parse_args_S. simpl toks_args.
    rewrite (parse_expr_mono (1 + cost a) F _ (a, TRParen :: ts));
      [reflexivity|lia|].
    apply Ha. reflexivity.
  - unfold cost_args in HF. simpl in HF.
    destruct F as [|F]; [lia|]. rewrite parse_args_S.
    change (toks_args (a :: b :: args) (TRParen :: ts))
      with (toks_expr a (TComma :: toks_args (b :: args) (TRParen :: ts))).
    rewrite (parse_expr_mono (1 + cost a) F _
               (a, TComma :: toks_args (b :: args) (TRParen :: ts)));
      [|lia|apply Ha; reflexivity].
    assert (Hrest : parse_args F (toks_args (b :: args) (TRParen :: ts))
                    = Some (b :: args, ts)).
    { apply IH; [exact Hb|]. unfold cost_args. simpl. lia. }
    destruct (toks_args_head b args (TRParen :: ts)) as [x [k' Hh]].
    rewrite Hh in *. now rewrite Hrest.
Qed.

Lemma parse_toks_expr (e : pexpr) : valid_expr e = true -> parses e.
Proof.
  induction e as [id|e attr IH|f args IHf IHargs] using pexpr_ind';
    intros Hv ts r k Hk.
  - simpl in Hv. simpl cost. rewrite Nat.add_1_r, parse_expr_S. simpl.
    now rewrite (valid_name_not_keyword _ Hv).
  - simpl in Hv. apply andb_true_iff in Hv as [He Ha].
    simpl cost. rewrite Nat.add_succ_r, <- Nat.add_succ_l.
    change (toks_expr (PAttr e attr) ts)
      with (toks_expr e (TDot :: TName attr :: ts)).
    apply IH; [exact He|].
    rewrite parse_postfix_S. now rewrite (valid_name_not_keyword _ Ha).
  - simpl in Hv. apply andb_true_iff in Hv as [Hf Hargs].
    rewrite toks_expr_call.
    change (cost (PCall f args)) with (S (cost f + cost_args args)).
    replace (k + S (cost f + cost_args args))
      with (S (k + cost_args args) + cost f) by lia.
    apply IHf; [exact Hf|].
    rewrite parse_postfix_S.
    assert (Hpost : parse_postfix (k + cost_args args) (PCall f args) ts = Some r)
      by (apply (parse_postfix_mono k); [lia|exact Hk]).
    destruct args as [|a args]; [exact Hpost|].
    assert (Hall : Forall parses (a :: args)).
    { rewrite forallb_forall in Hargs. rewrite Forall_forall in *.
      intros x Hx. apply IHargs; [exact Hx|]. now apply Hargs. }
    inversion Hall as [|a' args' Ha Hrest]; subst.
    pose proof (parse_toks_args args Hrest a ts (k + cost_args (a :: args)) Ha
                  ltac:(lia)) as Hp.
    destruct (toks_args_head a args (TRParen :: ts)) as [x [k' Hh]].
    rewrite Hh in *. now rewrite Hp.
Qed.

Lemma cost_args_cons (a : pexpr) (args : list pexpr) :
  cost_args (a :: args) = S (S (cost a)) + cost_args args.
Proof. reflexivity. Qed.

Lemma cost_bound_args (args : list pexpr) :
  Forall bounded args ->
  forall k : list token,
    2 * List.length k + cost_args args
    <= 2 * List.length (toks_args args (TRParen :: k)).
Proof.
  induction 1 as [|a args Ha Hargs IH]; intros k.
  - unfold cost_args. simpl. lia.
  - rewrite cost_args_cons. destruct args as [|b args].
    + pose proof (Ha (TRParen :: k)) as H.
      change (toks_args [a] (TRParen :: k)) with (toks_expr a (TRParen :: k)).
      change (cost_args []) with 0.
      change (List.length (TRParen :: k)) with (S (List.length k)) in H. lia.
    + change (toks_args (a :: b :: args) (TRParen :: k))
        with (toks_expr a (TComma :: toks_args (b :: args) (TRParen :: k))).
      pose proof (Ha (TComma :: toks_args (b :: args) (TRParen :: k))) as H.
      pose proof (IH k) as H'.
      change (List.length (TComma :: toks_args (b :: args) (TRParen :: k)))
        with (S (List.length (toks_args (b :: args) (TRParen :: k)))) in H.
      lia.
Qed.

Lemma cost_bound (e : pexpr) : bounded e.
Proof.
  induction e as [id|e attr IH|f args IHf IHargs] using pexpr_ind'; intros k.
  - simpl. lia.
  - change (toks_expr (PAttr e attr) k)
      with (toks_expr e (TDot :: TName attr :: k)).
    pose proof (IH (TDot :: TName attr :: k)) as H.
    change (List.length (TDot :: TName attr :: k))
      with (S (S (List.length k))) in H.
    change (cost (PAttr e attr)) with (S (cost e)). lia.
  - rewrite toks_expr_call.
    change (cost (PCall f args)) with (S (cost f + cost_args args)).
    pose proof (IHf (TLParen :: toks_args args (TRParen :: k))) as Hf.
    pose proof (cost_bound_args args IHargs k) as Ha.
    change (List.length (TLParen :: toks_args args (TRParen :: k)))
      with (S (List.length (toks_args args (TRParen :: k)))) in Hf.
    lia.
Qed.

Lemma parse_simple_toks (e : pexpr) :
  valid_expr e = true ->
  parse_expr (2 * List.length (toks_expr e []) + 2) (toks_expr e [])
  = Some (e, []).
Proof.
  intros Hv.
  apply (parse_expr_mono (1 + cost e)).
  - pose proof (cost_bound e []) as H. simpl in H. lia.
  - apply parse_toks_expr; [exact Hv|reflexivity].
Qed.

(** *** What the lexer and the parser return is valid *)

Lemma all_chars_snoc (p : ascii -> bool) (w : string) (c : ascii) :
  all_chars p w = true -> p c = true -> all_chars p (w ++ String c "") = true.
Proof.
  induction w as [|x w IH]; simpl; intros Hw Hc.
  - now rewrite Hc.
  - apply andb_true_iff in Hw as [Hx Hw]. now rewrite Hx, IH.
Qed.

Lemma lexical_snoc (w : string) (c : ascii) :
  lexical w = true -> is_ident_char c = true ->
  lexical (w ++ String c "") = true.
Proof.
  destruct w as [|x w]; [discriminate|]. simpl. intros H Hc.
  apply andb_true_iff in H as [Hx Hw].
  now rewrite Hx, all_chars_snoc.
Qed.

Lemma punct_ok (c : ascii) (p : list token) :
  punct c = Some p -> toks_ok p = true.
Proof.
  unfold punct.
  repeat match goal with
         | |- context [if ?b then _ else _] => destruct b
         end; intros [= <-]; reflexivity.
Qed.

Lemma flush_ok (w : string) (ts : list token) :
  w = "" \/ lexical w = true -> toks_ok ts = true -> toks_ok (flush w ts) = true.
Proof.
  intros Hw Hts. destruct w as [|c w]; [exact Hts|].
  destruct Hw as [Hw|Hw]; [discriminate|].
  change (toks_ok (flush (String c w) ts))
    with (lexical (String c w) && toks_ok ts).
  now rewrite Hw, Hts.
Qed.

Lemma toks_ok_app (a b : list token) :
  toks_ok a = true -> toks_ok b = true -> toks_ok (app a b) = true.
Proof. unfold toks_ok. rewrite forallb_app. now intros -> ->. Qed.

Lemma lex_ok (s : string) :
  forall (acc : string) (ts : list token),
    acc = "" \/ lexical acc = true ->
    lex s acc = Some ts -> toks_ok ts = true.
Proof.
  induction s as [|c s IH]; intros acc ts Hacc; simpl.
  - intros [= <-]. now apply flush_ok.
  - destruct (is_ident_start c) eqn:Hs.
    + apply IH. right. destruct Hacc as [->|Hacc].
      * simpl. now rewrite Hs.
      * apply lexical_snoc; [exact Hacc|]. unfold is_ident_char. now rewrite Hs.
    + destruct (is_digit c) eqn:Hd.
      * destruct acc as [|a acc]; [discriminate|].
        apply IH. right. destruct Hacc as [Hacc|Hacc]; [discriminate|].
        apply lexical_snoc; [exact Hacc|]. unfold is_ident_char.
        now rewrite Hd, orb_true_r.
      * destruct (punct c) as [p|] eqn:Hp; [|discriminate].
        destruct (lex s "") as [ts'|] eqn:Hl; [|discriminate].
        intros [= <-]. apply flush_ok; [exact Hacc|].
        apply toks_ok_app; [now apply (punct_ok c)|].
        apply (IH "" ts'); [now left|exact Hl].
Qed.

Lemma parse_valid (fuel : nat) :
  (forall ts e rest,
      toks_ok ts = true -> parse_expr fuel ts = Some (e, rest) ->
      valid_expr e = true /\ toks_ok rest = true)
  /\ (forall e0 ts e rest,
         valid_expr e0 = true -> toks_ok ts = true ->
         parse_postfix fuel e0 ts = Some (e, rest) ->
         valid_expr e = true /\ toks_ok rest = true)
  /\ (forall ts es rest,
         toks_ok ts = true -> parse_args fuel ts = Some (es, rest) ->
         forallb valid_expr es = true /\ toks_ok rest = true).
Proof.
  induction fuel as [|fuel [IHe [IHp IHa]]].
  - repeat split; intros; discriminate.
  - split; [|split].
    + intros ts e rest Hts. rewrite parse_expr_S.
      destruct ts as [|[x| | | | |] ts]; try discriminate.
      destruct (is_keyword x) eqn:Hk; [discriminate|].
      unfold toks_ok in Hts. simpl in Hts.
      apply andb_true_iff in Hts as [Hx Hts].
      apply IHp; [|exact Hts]. simpl. unfold valid_name. now rewrite Hx, Hk.
    + intros e0 ts e rest He0 Hts. rewrite parse_postfix_S.
      destruct ts as [|[x| | | | |] ts];
        try (intros [= <- <-]; now split).
      * (* TLParen *)
        unfold toks_ok in Hts. simpl in Hts.
        assert (Hcall : forall args rest',
                   parse_args fuel ts = Some (args, rest') ->
                   parse_postfix fuel (PCall e0 args) rest' = Some (e, rest) ->
                   valid_expr e = true /\ toks_ok rest = true).
        { intros args rest' Ha Hp.
          destruct (IHa _ _ _ Hts Ha) as [Hargs Hrest'].
          apply (IHp (PCall e0 args) rest'); [|exact Hrest'|exact Hp].
          simpl. now rewrite He0, Hargs. }
        destruct ts as [|[x| | | | |] ts];
          try (destruct (parse_args fuel _) as [[args rest']|] eqn:Ha;
               [|discriminate]; now apply (Hcall args rest')).
        simpl in Hts. apply (IHp (PCall e0 [])); [|exact Hts].
        simpl. now rewrite He0.
      * (* TDot *)
        destruct ts as [|[a| | | | |] ts]; try discriminate.
        destruct (is_keyword a) eqn:Hk; [discriminate|].
        unfold toks_ok in Hts. simpl in Hts.
        apply andb_true_iff in Hts as [Ha Hts].
        apply IHp; [|exact Hts]. simpl. unfold valid_name.
        now rewrite He0, Ha, Hk.
    + intros ts es rest Hts. rewrite parse_args_S.
      destruct (parse_expr fuel ts) as [[e rest0]|] eqn:He; [|discriminate].
      destruct (IHe _ _ _ Hts He) as [Hv Hrest0].
      destruct rest0 as [|[x| | | | |] rest0]; try discriminate.
      * intros [= <- <-]. simpl. rewrite Hv. now split.
      * unfold toks_ok in Hrest0. simpl in Hrest0.
        assert (Hmore : forall es' rest',
                   parse_args fuel rest0 = Some (es', rest') ->
                   forallb valid_expr (e :: es') = true /\ toks_ok rest' = true).
        { intros es' rest' Ha. destruct (IHa _ _ _ Hrest0 Ha) as [H1 H2].
          simpl. now rewrite Hv, H1. }
        destruct rest0 as [|[x| | | | |] rest0];
          try (destruct (parse_args fuel _) as [[es' rest']|] eqn:Ha;
               [|discriminate]; intros [= <- <-]; now apply Hmore).
        intros [= <- <-]. simpl. rewrite Hv. now split.
Qed.

Lemma parse_simple_valid (ts : list token) (s : simple) :
  toks_ok ts = true -> parse_simple ts = Some s -> valid_simple s = true.
Proof.
  intros Hts. unfold parse_simple.
  destruct (is_pass ts); [now intros [= <-]|].
  destruct (parse_expr _ ts) as [[e rest]|] eqn:He; [|discriminate].
  destruct rest; [|discriminate]. intros [= <-].
  now destruct (proj1 (parse_valid _) _ _ _ Hts He).
Qed.

Lemma parse_def_header_inv (ts : list token) (f : string) (rest : list token) :
  parse_def_header ts = Some (f, rest) ->
  exists d, ts = d :: TName f :: TLParen :: TRParen :: TColon :: rest
            /\ is_name d "def" = true /\ is_keyword f = false.
Proof.
  unfold parse_def_header.
  destruct ts as [|d [|[f'| | | | |] [|[] [|[] [|[] ts]]]]]; try discriminate.
  destruct (is_name d "def") eqn:Hd; [|discriminate].
  destruct (is_keyword f') eqn:Hk; [discriminate|].
  intros [= <- <-]. now exists d.
Qed.

Lemma parse_def_header_valid (ts : list token) (f : string) (rest : list token) :
  toks_ok ts = true -> parse_def_header ts = Some (f, rest) ->
  valid_name f = true /\ toks_ok rest = true.
Proof.
  intros Hts H. apply parse_def_header_inv in H as [d [-> [_ Hk]]].
  unfold toks_ok in Hts. simpl in Hts.
  apply andb_true_iff in Hts as [_ Hts].
  apply andb_true_iff in Hts as [Hf Hts].
  unfold valid_name. now rewrite Hf, Hk.
Qed.

Lemma lex_lines_ok (ls : list string) :
  forall lines : list line, lex_lines ls = Some lines -> lines_ok lines = true.
Proof.
  induction ls as [|l ls IH]; intros lines; simpl.
  - now intros [= <-].
  - destruct (lex l "") as [ts|] eqn:Hl; [|discriminate].
    destruct (lex_lines ls) as [ls'|]; [|now destruct ts].
    pose proof (lex_ok l "" ts (or_introl eq_refl) Hl) as Hts.
    destruct ts as [|t ts]; intros [= <-]; [now apply IH|].
    change (toks_ok (t :: ts) && lines_ok ls' = true).
    rewrite Hts. now apply IH.
Qed.

Lemma parse_block_valid (k : nat) (ls : list line) :
  forall (ss : list simple) (rest : list line),
    lines_ok ls = true -> parse_block k ls = Some (ss, rest) ->
    forallb valid_simple ss = true /\ lines_ok rest = true
    /\ List.length rest <= List.length ls.
Proof.
  induction ls as [|[i ts] ls IH]; intros ss rest Hls; simpl.
  - intros [= <- <-]. now repeat split.
  - destruct (i =? 0); [intros [= <- <-]; now repeat split|].
    destruct (i =? k); [|discriminate].
    simpl in Hls. apply andb_true_iff in Hls as [Hts Hls].
    destruct (parse_simple ts) as [s|] eqn:Hs; [|discriminate].
    destruct (parse_block k ls) as [[ss' rest']|] eqn:Hb; [|discriminate].
    intros [= <- <-]. destruct (IH _ _ Hls eq_refl) as [H1 [H2 H3]].
    simpl. rewrite (parse_simple_valid ts s Hts Hs), H1.
    repeat split; [exact H2|lia].
Qed.

Lemma parse_stmts_valid (fuel : nat) :
  forall (ls : list line) (p : list pstmt),
    lines_ok ls = true -> parse_stmts fuel ls = Some p ->
    valid_program p = true.
Proof.
  induction fuel as [|fuel IH]; intros ls p Hls; cbn [parse_stmts].
  - destruct ls; [now intros [= <-]|discriminate].
  - destruct ls as [|[i ts] rest]; [now intros [= <-]|].
    destruct (i =? 0); cbn [negb]; [|discriminate].
    simpl in Hls. apply andb_true_iff in Hls as [Hts Hrest].
    destruct (parse_def_header ts) as [[f body]|] eqn:Hh.
    + destruct (parse_def_header_valid ts f body Hts Hh) as [Hf Hbody].
      destruct body as [|t body].
      * destruct rest as [|[k ts'] rest]; [discriminate|].
        destruct (parse_block k _) as [[[|s ss] rest']|] eqn:Hb;
          try discriminate.
        destruct (parse_block_valid _ _ _ _ Hrest Hb) as [Hss [Hrest' _]].
        destruct (parse_stmts fuel rest') as [ps|] eqn:Hps; [|discriminate].
        cbn [option_map]. intros [= <-]. simpl. rewrite Hf. simpl in Hss.
        rewrite Hss. simpl. now apply (IH rest').
      * destruct (parse_simple (t :: body)) as [s|] eqn:Hs; [|discriminate].
        destruct (parse_stmts fuel rest) as [ps|] eqn:Hps; [|discriminate].
        intros [= <-]. simpl.
        rewrite Hf, (parse_simple_valid _ s Hbody Hs). simpl.
        now apply (IH rest).
    + destruct (parse_simple ts) as [s|] eqn:Hs; [|discriminate].
      destruct (parse_stmts fuel rest) as [ps|] eqn:Hps; [|discriminate].
      intros [= <-]. simpl. rewrite (parse_simple_valid _ s Hts Hs). simpl.
      now apply (IH rest).
Qed.

Lemma parse_program_valid (code : string) (p : list pstmt) :
  parse_program code = Some p -> valid_program p = true.
Proof.
  unfold parse_program.
  destruct (lex_lines _) as [ls|] eqn:Hl; [|discriminate].
  apply parse_stmts_valid. now apply (lex_lines_ok _ _ Hl).
Qed.

(** *** The statement parser on the lines of a module *)

Lemma toks_expr_head_valid (e : pexpr) :
  valid_expr e = true ->
  forall k : list token,
    exists x k', toks_expr e k = TName x :: k' /\ is_keyword x = false.
Proof.
  induction e as [id|e attr IH|f args IHf _] using pexpr_ind'; intros Hv k.
  - exists id, k. split; [reflexivity|]. now apply valid_name_not_keyword.
  - simpl in Hv. apply andb_true_iff in Hv as [He _]. now apply IH.
  - simpl in Hv. apply andb_true_iff in Hv as [Hf _].
    rewrite toks_expr_call. now apply IHf.
Qed.

Lemma parse_simple_toks_simple (s : simple) :
  valid_simple s = true -> parse_simple (toks_simple s) = Some s.
Proof.
  destruct s as [|e]; [reflexivity|]. simpl. intros Hv.
  unfold parse_simple.
  destruct (toks_expr_head_valid e Hv []) as [x [k' [Hh Hk]]].
  assert (Hp : is_pass (toks_expr e []) = false).
  { rewrite Hh. destruct k'; [|reflexivity]. simpl.
    destruct (String.eqb_spec x "pass") as [->|]; [discriminate|reflexivity]. }
  rewrite Hp. now rewrite parse_simple_toks.
Qed.

Lemma parse_def_header_toks_simple (s : simple) :
  valid_simple s = true -> parse_def_header (toks_simple s) = None.
Proof.
  intros Hv.
  destruct (parse_def_header (toks_simple s)) as [[f rest]|] eqn:Hh;
    [|reflexivity].
  apply parse_def_header_inv in Hh as [d [Heq [Hd _]]].
  destruct s as [|e]; [discriminate|]. simpl in *.
  destruct (toks_expr_head_valid e Hv []) as [x [k' [Hx Hk]]].
  rewrite Hx in Heq. injection Heq as <- _. simpl in Hd.
  apply String.eqb_eq in Hd. subst x. discriminate.
Qed.

Lemma parse_block_body (bs : list simple) (rest : list line) :
  forallb valid_simple bs = true -> starts_at_margin rest = true ->
  parse_block 4 (app (map (fun b => (4, toks_simple b)) bs) rest)
  = Some (bs, rest).
Proof.
  intros Hbs Hrest. induction bs as [|b bs IH]; cbn [map app].
  - destruct rest as [|[i ts] rest]; [reflexivity|].
    cbn [starts_at_margin] in Hrest. cbn [parse_block]. now rewrite Hrest.
  - simpl in Hbs. apply andb_true_iff in Hbs as [Hb Hbs].
    cbn [parse_block Nat.eqb].
    now rewrite (parse_simple_toks_simple b Hb), (IH Hbs).
Qed.

Lemma lines_of_margin (p : list pstmt) : starts_at_margin (lines_of p) = true.
Proof. destruct p as [|[s|f b bs] p]; reflexivity. Qed.

Lemma parse_stmts_lines (p : list pstmt) :
  forall fuel : nat,
    valid_program p = true -> List.length p <= fuel ->
    parse_stmts fuel (lines_of p) = Some p.
Proof.
  induction p as [|s p IH]; intros fuel Hv Hf.
  - now destruct fuel.
  - simpl in Hv. apply andb_true_iff in Hv as [Hs Hp].
    destruct fuel as [|fuel]; [simpl in Hf; lia|].
    simpl in Hf. specialize (IH fuel Hp ltac:(lia)).
    destruct s as [s|f b bs].
    + simpl in Hs. change (lines_of (PSimple s :: p))
        with ((0, toks_simple s) :: lines_of p).
      simpl. now rewrite (parse_def_header_toks_simple s Hs),
               (parse_simple_toks_simple s Hs), IH.
    + simpl in Hs. apply andb_true_iff in Hs as [Hname Hbody].
      change (lines_of (PDef f b bs :: p))
        with ((0, def_header f)
              :: app (map (fun x => (4, toks_simple x)) (b :: bs)) (lines_of p)).
      cbn [parse_stmts Nat.eqb negb].
      assert (Hh : parse_def_header (def_header f) = Some (f, [])).
      { unfold parse_def_header, def_header.
        now rewrite (valid_name_not_keyword f Hname). }
      rewrite Hh.
      pose proof (parse_block_body (b :: bs) (lines_of p) Hbody
                    (lines_of_margin p)) as Hb.
      cbn [map app] in Hb |- *. rewrite Hb, IH. reflexivity.
Qed.

(** *** The printer writes the pieces of the typed syntax *)

Lemma pieces_expr_call f args :
  pieces_expr (PCall f args)
  = app (pieces_expr f) ("(" :: app (pieces_args false args) [")"]).
Proof. reflexivity. Qed.

Lemma all_nodes_map (n : node) (ns : list node) :
  all_nodes n (map VNode ns) = Return ns.
Proof.
  induction ns as [|m ns IH]; simpl; [reflexivity|]. now rewrite IH.
Qed.

Lemma for_each_return {A S : Type} (step : S -> A -> outcome S)
  (g : S -> A -> S) (l : list A) :
  (forall a, In a l -> forall acc, step acc a = Return (g acc a)) ->
  forall acc, for_each l step acc = Return (fold_left g l acc).
Proof.
  induction l as [|a l IH]; intros H acc; simpl; [reflexivity|].
  rewrite (H a (or_introl eq_refl)). simpl.
  apply IH. intros b Hb. apply H. now right.
Qed.

Lemma le_list_sum (x : nat) (l : list nat) : In x l -> x <= list_sum l.
Proof.
  induction l as [|y l IH]; simpl; [easy|].
  intros [->|H]; [lia|]. specialize (IH H). lia.
Qed.

Lemma traverse_Name fuel indent id src :
  traverse (S fuel) indent (Name id Load) src = Return (write id src).
Proof. reflexivity. Qed.

Lemma traverse_Attribute fuel indent v attr src :
  traverse (S fuel) indent (Attribute v attr Load) src
  = (src' <- traverse fuel indent v src ;;
     Return (write attr (write "." src')))%py.
Proof. reflexivity. Qed.

Lemma traverse_Call fuel indent func ns src :
  traverse (S fuel) indent (Call func (VList (map VNode ns)) (VList [])) src
  = (src1 <- traverse fuel indent func src ;;
     st <- for_each ns
             (fun (st : bool * list string) a =>
                src2 <- traverse fuel indent a
                          (if fst st then write ", " (snd st) else snd st) ;;
                Return (true, src2))
             (false, write "(" src1) ;;
     Return (write ")" (snd st)))%py.
Proof.
  set (n := Call func (VList (map VNode ns)) (VList [])).
  assert (Hf : node_field n "func" = Return func) by reflexivity.
  assert (Ha : list_field n "args" = Return ns).
  { unfold list_field.
    change (getattr n "args") with (Return (VList (map VNode ns))).
    cbn [bind]. apply all_nodes_map. }
  assert (Hk : empty_field n "keywords" = Return tt) by reflexivity.
  change (traverse (S fuel) indent n src)
    with (func0 <- node_field n "func" ;;
          args <- list_field n "args" ;;
          _ <- empty_field n "keywords" ;;
          src0 <- traverse fuel indent func0 src ;;
          st <- for_each args
                  (fun (st : bool * list string) a =>
                     src1 <- traverse fuel indent a
                               (if fst st then write ", " (snd st) else snd st) ;;
                     Return (true, src1))
                  (false, write "(" src0) ;;
          Return (write ")" (snd st)))%py.
  rewrite Hf, Ha, Hk. reflexivity.
Qed.

Lemma count_nodes_Attribute v attr :
  count_nodes (Attribute v attr Load) = S (S (count_nodes v)).
Proof. simpl. lia. Qed.

Lemma count_nodes_Call func (ns : list node) :
  count_nodes (Call func (VList (map VNode ns)) (VList []))
  = S (count_nodes func + count_forest ns).
Proof.
  unfold Call. cbn [count_nodes count_value map snd list_sum].
  rewrite map_map. unfold count_forest. simpl.
  change (fun x : node => count_nodes x) with count_nodes. lia.
Qed.

Lemma embed_expr_call f args :
  embed_expr (PCall f args)
  = Call (embed_expr f) (VList (map VNode (map embed_expr args))) (VList []).
Proof. simpl. now rewrite map_map. Qed.

Lemma traverse_args (fuel indent : nat) (args : list pexpr) :
  Forall prints args ->
  count_forest (map embed_expr args) <= fuel ->
  forall (comma : bool) (src : list string),
    exists comma',
      for_each (map embed_expr args)
        (fun (st : bool * list string) a =>
           src2 <- traverse fuel indent a
                     (if fst st then write ", " (snd st) else snd st) ;;
           Return (true, src2))%py
        (comma, src)
      = Return (comma', app src (pieces_args comma args)).
Proof.
  induction 1 as [|a args Ha Hargs IH]; intros Hfuel comma src.
  - exists comma. simpl. now rewrite app_nil_r.
  - cbn [map for_each fst snd].
    unfold count_forest in Hfuel. simpl in Hfuel.
    rewrite (Ha fuel indent _ ltac:(lia)). cbn [bind].
    destruct (IH ltac:(unfold count_forest; lia) true
                (app (if comma then write ", " src else src) (pieces_expr a)))
      as [comma' E].
    exists comma'. rewrite E. f_equal. f_equal.
    cbn [pieces_args]. destruct comma; unfold write;
      now rewrite <- ?app_assoc.
Qed.

Lemma traverse_expr (e : pexpr) : prints e.
Proof.
  induction e as [id|e attr IH|f args IHf IHargs] using pexpr_ind';
    intros fuel indent src Hfuel.
  - destruct fuel as [|fuel]; [simpl in Hfuel; lia|]. reflexivity.
  - change (embed_expr (PAttr e attr))
      with (Attribute (embed_expr e) attr Load) in *.
    rewrite count_nodes_Attribute in Hfuel.
    destruct fuel as [|fuel]; [lia|].
    rewrite traverse_Attribute, (IH fuel indent src ltac:(lia)).
    cbn [bind pieces_expr]. unfold write. now rewrite <- !app_assoc.
  - rewrite embed_expr_call in *. rewrite count_nodes_Call in Hfuel.
    destruct fuel as [|fuel]; [lia|].
    rewrite traverse_Call, (IHf fuel indent src ltac:(lia)). cbn [bind].
    destruct (traverse_args fuel indent args IHargs ltac:(lia) false
                (write "(" (app src (pieces_expr f)))) as [comma' E].
    rewrite E. cbn [bind snd]. rewrite pieces_expr_call.
    unfold write. f_equal. rewrite <- !app_assoc. reflexivity.
Qed.

Lemma traverse_Pass fuel indent src :
  traverse (S fuel) indent (Node "Pass" []) src = Return (fill indent "pass" src).
Proof. reflexivity. Qed.

Lemma traverse_Expr fuel indent v src :
  traverse (S fuel) indent (Node "Expr" [("value", VNode v)]) src
  = traverse fuel indent v (fill indent "" src).
Proof. reflexivity. Qed.

Lemma traverse_simple (s : simple) (fuel indent : nat) (src : list string) :
  count_nodes (embed_simple s) <= fuel ->
  traverse fuel indent (embed_simple s) src = Return (write_simple indent s src).
Proof.
  intros Hfuel. destruct s as [|e].
  - destruct fuel as [|fuel]; [simpl in Hfuel; lia|]. reflexivity.
  - destruct fuel as [|fuel]; [simpl in Hfuel; lia|].
    cbn [embed_simple]. rewrite traverse_Expr.
    apply traverse_expr. simpl in Hfuel. lia.
Qed.

Lemma traverse_FunctionDef fuel indent name body src :
  traverse (S fuel) indent (def_node name body) src
  = for_each body (fun s m => traverse fuel (S indent) m s)
      (write ":" (write ")" (write "("
         (fill indent ("def " ++ name) (maybe_newline src))))).
Proof.
  set (n := def_node name body).
  assert (Hb : list_field n "body" = Return body).
  { unfold list_field.
    change (getattr n "body") with (Return (VList (map VNode body))).
    cbn [bind]. apply all_nodes_map. }
  change (traverse (S fuel) indent n src)
    with (name0 <- str_field n "name" ;;
          args <- node_field n "args" ;;
          _ <- empty_fields args
                 ["posonlyargs"; "args"; "vararg"; "kwonlyargs"; "kw_defaults";
                  "kwarg"; "defaults"] ;;
          _ <- empty_fields n
                 ["decorator_list"; "returns"; "type_comment"; "type_params"] ;;
          body0 <- list_field n "body" ;;
          for_each body0 (fun s m => traverse fuel (S indent) m s)
            (write ":" (write ")" (write "("
               (fill indent ("def " ++ name0) (maybe_newline src))))))%py.
  rewrite Hb. reflexivity.
Qed.

Lemma traverse_Module fuel indent body src :
  traverse (S fuel) indent (module_node body) src
  = for_each body (fun s m => traverse fuel indent m s) src.
Proof.
  set (n := module_node body).
  assert (Hb : list_field n "body" = Return body).
  { unfold list_field.
    change (getattr n "body") with (Return (VList (map VNode body))).
    cbn [bind]. apply all_nodes_map. }
  change (traverse (S fuel) indent n src)
    with (body0 <- list_field n "body" ;;
          for_each body0 (fun s m => traverse fuel indent m s) src)%py.
  now rewrite Hb.
Qed.

Lemma count_nodes_def name body :
  count_nodes (def_node name body) = S (S (count_forest body)).
Proof.
  unfold def_node. cbn [count_nodes count_value map snd list_sum no_arguments].
  rewrite map_map. unfold count_forest. simpl.
  change (fun x : node => count_nodes x) with count_nodes. lia.
Qed.

Lemma count_nodes_module body :
  count_nodes (module_node body) = S (count_forest body).
Proof.
  unfold module_node. cbn [count_nodes count_value map snd list_sum].
  rewrite map_map. unfold count_forest. simpl.
  change (fun x : node => count_nodes x) with count_nodes. lia.
Qed.

Lemma embed_stmt_def name first rest :
  embed_stmt (PDef name first rest)
  = def_node name (map embed_simple (first :: rest)).
Proof. unfold def_node. cbn [embed_stmt]. now rewrite map_map. Qed.

Lemma embed_module_node p :
  embed_module p = module_node (map embed_stmt p).
Proof. unfold module_node, embed_module. now rewrite map_map. Qed.

Lemma count_forest_in (n : node) (ns : list node) :
  In n ns -> count_nodes n <= count_forest ns.
Proof. intros H. apply le_list_sum. now apply in_map. Qed.

Lemma for_each_map {A B S : Type} (f : A -> B) (step : S -> B -> outcome S)
  (l : list A) (acc : S) :
  for_each (map f l) step acc = for_each l (fun s a => step s (f a)) acc.
Proof.
  revert acc. induction l as [|a l IH]; intros acc; simpl; [reflexivity|].
  destruct (step acc (f a)); simpl; [apply IH|reflexivity].
Qed.

Lemma traverse_stmt (s : pstmt) (fuel : nat) (src : list string) :
  count_nodes (embed_stmt s) <= fuel ->
  traverse fuel 0 (embed_stmt s) src = Return (write_stmt s src).
Proof.
  intros Hfuel. destruct s as [s|name first rest].
  - now apply traverse_simple.
  - rewrite embed_stmt_def in *. rewrite count_nodes_def in Hfuel.
    destruct fuel as [|fuel]; [lia|].
    rewrite traverse_FunctionDef, for_each_map.
    apply (for_each_return _ (fun acc b => write_simple 1 b acc)).
    intros b Hb acc. apply traverse_simple.
    pose proof (count_forest_in (embed_simple b) (map embed_simple (first :: rest))
                  (in_map _ _ _ Hb)). lia.
Qed.

Lemma traverse_module (p : list pstmt) (fuel : nat) :
  count_nodes (embed_module p) <= fuel ->
  traverse fuel 0 (embed_module p) [] = Return (write_program p []).
Proof.
  intros Hfuel. rewrite embed_module_node in *.
  rewrite count_nodes_module in Hfuel.
  destruct fuel as [|fuel]; [lia|].
  rewrite traverse_Module, for_each_map.
  apply (for_each_return _ (fun acc s => write_stmt s acc)).
  intros s Hs acc. apply traverse_stmt.
  pose proof (count_forest_in (embed_stmt s) (map embed_stmt p)
                (in_map _ _ _ Hs)). lia.
Qed.

Lemma unparse_module (frames : nat) (p : list pstmt) :
  count_nodes (embed_module p) <= frames / 3 ->
  Fragment.unparse frames (embed_module p)
  = Return (String.concat "" (write_program p [])).
Proof.
  intros Hfuel. unfold Fragment.unparse.
  now rewrite (traverse_module p (frames / 3) Hfuel).
Qed.

(** *** The pieces make the lines of the text *)

Lemma concat_cons (x : string) (l : list string) :
  String.concat "" (x :: l) = x ++ String.concat "" l.
Proof. destruct l; simpl; [now rewrite append_nil_r|reflexivity]. Qed.

Lemma concat_app (a b : list string) :
  String.concat "" (app a b) = String.concat "" a ++ String.concat "" b.
Proof.
  induction a as [|x a IH]; [reflexivity|].
  change (app (x :: a) b) with (x :: app a b).
  now rewrite !concat_cons, IH, append_assoc.
Qed.

Lemma concat_pieces_args (args : list pexpr) :
  Forall shows args ->
  forall (a : pexpr) (r : string),
    shows a ->
    String.concat "" (pieces_args false (a :: args)) ++ r
    = show_args (a :: args) r.
Proof.
  induction 1 as [|b args Hb Hargs IH]; intros a r Ha.
  - cbn [pieces_args app show_args]. rewrite app_nil_r. apply Ha.
  - change (pieces_args false (a :: b :: args))
      with (app (pieces_expr a) (", " :: pieces_args false (b :: args))).
    change (show_args (a :: b :: args) r)
      with (show_expr a (", " ++ show_args (b :: args) r)).
    rewrite concat_app, concat_cons, !append_assoc, (IH b r Hb).
    apply Ha.
Qed.

Lemma concat_pieces_expr (e : pexpr) : shows e.
Proof.
  induction e as [id|e attr IH|f args IHf IHargs] using pexpr_ind'; intros r.
  - reflexivity.
  - cbn [pieces_expr show_expr].
    rewrite concat_app, append_assoc. rewrite <- IH. f_equal.
  - rewrite pieces_expr_call, show_expr_call.
    rewrite concat_app, concat_cons, concat_app, !append_assoc.
    rewrite <- IHf. f_equal. f_equal.
    destruct args as [|a args]; [reflexivity|].
    inversion IHargs as [|a' args' Ha Hrest]; subst.
    rewrite <- (concat_pieces_args args Hrest a (")" ++ r) Ha).
    reflexivity.
Qed.

Lemma write_not_nil (text : string) (src : list string) :
  is_nil (write text src) = false.
Proof. unfold write. now destruct src. Qed.

Lemma concat_write (text : string) (src : list string) :
  String.concat "" (write text src) = String.concat "" src ++ text.
Proof. unfold write. now rewrite concat_app. Qed.

Lemma concat_maybe_newline (src : list string) :
  String.concat "" (maybe_newline src)
  = String.concat "" src ++ (if is_nil src then "" else nl).
Proof.
  destruct src as [|x src]; [reflexivity|].
  cbn [maybe_newline is_nil]. apply concat_write.
Qed.

Lemma maybe_newline_nil (src : list string) :
  is_nil (maybe_newline src) = is_nil src.
Proof. destruct src; [reflexivity|]. apply write_not_nil. Qed.

Lemma concat_fill (indent : nat) (text : string) (src : list string) :
  String.concat "" (fill indent text src)
  = String.concat "" src
    ++ (if is_nil src then "" else nl) ++ indent_text indent ++ text.
Proof.
  unfold fill. now rewrite concat_write, concat_maybe_newline, append_assoc.
Qed.

Lemma concat_write_simple (indent : nat) (s : simple) (src : list string) :
  String.concat "" (write_simple indent s src)
  = String.concat "" src
    ++ (if is_nil src then "" else nl) ++ indent_text indent ++ show_simple s.
Proof.
  destruct s as [|e]; cbn [write_simple show_simple].
  - apply concat_fill.
  - rewrite concat_app, concat_fill, !append_assoc.
    f_equal. f_equal. f_equal.
    rewrite <- (concat_pieces_expr e ""). now rewrite append_nil_r.
Qed.

Lemma write_simple_not_nil (indent : nat) (s : simple) (src : list string) :
  is_nil (write_simple indent s src) = false.
Proof.
  destruct s as [|e]; cbn [write_simple]; unfold fill.
  - apply write_not_nil.
  - unfold write. now destruct (maybe_newline src).
Qed.

Lemma concat_write_body (bs : list simple) :
  forall src : list string,
    is_nil src = false ->
    String.concat "" (fold_left (fun acc b => write_simple 1 b acc) bs src)
    = String.concat "" src
      ++ lines_text false (map (fun x => "    " ++ show_simple x) bs)
    /\ is_nil (fold_left (fun acc b => write_simple 1 b acc) bs src) = false.
Proof.
  induction bs as [|b bs IH]; intros src Hsrc.
  - simpl. now rewrite append_nil_r.
  - cbn [fold_left map lines_text].
    destruct (IH (write_simple 1 b src) (write_simple_not_nil 1 b src))
      as [E N].
    split; [|exact N]. rewrite E, concat_write_simple, Hsrc.
    cbn [indent_text]. now rewrite !append_assoc.
Qed.

Lemma lines_text_app (first : bool) (a b : list string) :
  lines_text first (app a b)
  = lines_text first a ++ lines_text (first && is_nil a) b.
Proof.
  revert first. induction a as [|x a IH]; intros first.
  - simpl. now rewrite andb_true_r.
  - cbn [app lines_text is_nil]. rewrite IH, andb_false_r. cbn [andb is_nil].
    now rewrite !append_assoc.
Qed.

Lemma concat_write_stmt (s : pstmt) (src : list string) :
  String.concat "" (write_stmt s src)
  = String.concat "" src
    ++ lines_text (is_nil src) (stmt_strings (is_nil src) s)
  /\ is_nil (write_stmt s src) = false.
Proof.
  destruct s as [s|f b bs].
  - cbn [write_stmt stmt_strings lines_text]. split.
    + rewrite concat_write_simple. cbn [indent_text].
      now rewrite !append_nil_r.
    + apply write_simple_not_nil.
  - cbn [write_stmt stmt_strings].
    set (head := write ":" (write ")" (write "("
                   (fill 0 ("def " ++ f) (maybe_newline src))))).
    destruct (concat_write_body (b :: bs) head (write_not_nil _ _)) as [E N].
    split; [|exact N]. rewrite E. unfold head.
    rewrite !concat_write, concat_fill, concat_maybe_newline, maybe_newline_nil.
    cbn [indent_text].
    destruct (is_nil src); cbn [app lines_text]; rewrite !append_assoc;
      reflexivity.
Qed.

Lemma concat_write_program (p : list pstmt) :
  forall src : list string,
    String.concat "" (write_program p src)
    = String.concat "" src
      ++ lines_text (is_nil src) (program_strings (is_nil src) p).
Proof.
  induction p as [|s p IH]; intros src.
  - simpl. now rewrite append_nil_r.
  - change (write_program (s :: p) src)
      with (write_program p (write_stmt s src)).
    destruct (concat_write_stmt s src) as [E N].
    rewrite IH, N, E. cbn [program_strings].
    rewrite lines_text_app, append_assoc. f_equal. f_equal.
    destruct (is_nil src); [|reflexivity].
    destruct s as [s|f b bs]; reflexivity.
Qed.

Lemma unparse_text (frames : nat) (p : list pstmt) :
  count_nodes (embed_module p) <= frames / 3 ->
  Fragment.unparse frames (embed_module p)
  = Return (lines_text true (program_strings true p)).
Proof.
  intros Hfuel. rewrite (unparse_module frames p Hfuel). f_equal.
  now rewrite (concat_write_program p []).
Qed.

(** *** Splitting and lexing the lines of the text *)

Lemma all_chars_app (p : ascii -> bool) (a b : string) :
  all_chars p (a ++ b) = all_chars p a && all_chars p b.
Proof.
  induction a as [|c a IH]; simpl; [reflexivity|].
  now rewrite IH, andb_assoc.
Qed.

Lemma split_lines_chars (l : string) :
  forall y cur : string,
    no_lf l = true -> split_lines (l ++ y) cur = split_lines y (cur ++ l).
Proof.
  induction l as [|c l IH]; intros y cur H; simpl.
  - now rewrite append_nil_r.
  - simpl in H. apply andb_true_iff in H as [Hc Hl].
    apply negb_true_iff in Hc. rewrite Hc, IH by exact Hl.
    now rewrite append_assoc.
Qed.

Lemma split_lines_text (ls : list string) :
  forallb no_lf ls = true ->
  forall cur : string, split_lines (lines_text false ls) cur = cur :: ls.
Proof.
  induction ls as [|l ls IH]; intros H cur; [reflexivity|].
  simpl in H. apply andb_true_iff in H as [Hl Hls].
  cbn [lines_text]. unfold nl at 1. cbn [append split_lines].
  rewrite Ascii.eqb_refl. f_equal.
  rewrite split_lines_chars by exact Hl. apply IH. exact Hls.
Qed.

Lemma split_lines_first (l : string) (ls : list string) :
  forallb no_lf (l :: ls) = true ->
  split_lines (lines_text true (l :: ls)) "" = l :: ls.
Proof.
  intros H. simpl in H. apply andb_true_iff in H as [Hl Hls].
  cbn [lines_text append].
  rewrite split_lines_chars by exact Hl. now apply split_lines_text.
Qed.

Lemma ident_char_not_lf (c : ascii) :
  is_ident_char c = true -> negb (Ascii.eqb c LF) = true.
Proof.
  intros H. apply negb_true_iff.
  destruct (Ascii.eqb_spec c LF) as [->|]; [discriminate|reflexivity].
Qed.

Lemma ident_chars_no_lf (w : string) :
  all_chars is_ident_char w = true -> no_lf w = true.
Proof.
  induction w as [|c w IH]; simpl; [reflexivity|].
  intros H. apply andb_true_iff in H as [Hc Hw].
  unfold no_lf. simpl. rewrite (ident_char_not_lf c Hc). now apply IH.
Qed.

Lemma valid_name_no_lf (w : string) : valid_name w = true -> no_lf w = true.
Proof.
  intros H. now apply ident_chars_no_lf, lexical_chars, valid_name_lexical.
Qed.

Lemma no_lf_app (a b : string) : no_lf (a ++ b) = no_lf a && no_lf b.
Proof. apply all_chars_app. Qed.

Lemma no_lf_show_expr (e : pexpr) :
  valid_expr e = true ->
  forall r : string, no_lf r = true -> no_lf (show_expr e r) = true.
Proof.
  induction e as [id|e attr IH|f args IHf IHargs] using pexpr_ind';
    intros Hv r Hr.
  - simpl in *. now rewrite no_lf_app, (valid_name_no_lf id Hv), Hr.
  - simpl in Hv. apply andb_true_iff in Hv as [He Ha].
    cbn [show_expr]. apply IH; [exact He|].
    change ("." ++ attr ++ r) with (String "." (attr ++ r)).
    unfold no_lf. cbn [all_chars].
    change (all_chars _ (attr ++ r)) with (no_lf (attr ++ r)).
    now rewrite no_lf_app, (valid_name_no_lf attr Ha), Hr.
  - simpl in Hv. apply andb_true_iff in Hv as [Hf Hargs].
    rewrite show_expr_call. apply IHf; [exact Hf|].
    change ("(" ++ show_args args (")" ++ r))
      with (String "(" (show_args args (")" ++ r))).
    unfold no_lf. cbn [all_chars].
    change (all_chars _ (show_args args (")" ++ r)))
      with (no_lf (show_args args (")" ++ r))).
    assert (Hclose : no_lf (")" ++ r) = true) by exact Hr.
    cbn [negb andb]. change (Ascii.eqb "(" LF) with false. cbn [negb andb].
    clear Hf IHf. revert Hargs.
    induction IHargs as [|a args Ha _ IHrec]; intros Hargs; [exact Hclose|].
    simpl in Hargs. apply andb_true_iff in Hargs as [Hva Hvargs].
    destruct args as [|b args].
    + now apply Ha.
    + change (show_args (a :: b :: args) (")" ++ r))
        with (show_expr a (", " ++ show_args (b :: args) (")" ++ r))).
      apply Ha; [exact Hva|]. now apply IHrec.
Qed.

Lemma show_expr_head (e : pexpr) :
  valid_expr e = true ->
  forall r : string,
    exists c rest, show_expr e r = String c rest /\ is_ident_start c = true.
Proof.
  induction e as [id|e attr IH|f args IHf _] using pexpr_ind'; intros Hv r.
  - simpl in Hv. apply valid_name_lexical in Hv.
    destruct id as [|c id]; [discriminate|]. simpl in Hv.
    apply andb_true_iff in Hv as [Hc _].
    now exists c, (id ++ r).
  - simpl in Hv. apply andb_true_iff in Hv as [He _]. now apply IH.
  - simpl in Hv. apply andb_true_iff in Hv as [Hf _].
    rewrite show_expr_call. now apply IHf.
Qed.

Lemma indentation_show_simple (s : simple) :
  valid_simple s = true -> indentation (show_simple s) = 0.
Proof.
  destruct s as [|e]; [reflexivity|]. simpl. intros Hv.
  destruct (show_expr_head e Hv "") as [c [rest [-> Hc]]].
  simpl. destruct (Ascii.eqb_spec c " ") as [->|]; [discriminate|reflexivity].
Qed.

Lemma lex_show_simple (s : simple) :
  valid_simple s = true -> lex (show_simple s) "" = Some (toks_simple s).
Proof.
  destruct s as [|e]; [reflexivity|]. simpl. intros Hv.
  now apply lex_show_expr.
Qed.

Lemma no_lf_show_simple (s : simple) :
  valid_simple s = true -> no_lf (show_simple s) = true.
Proof.
  destruct s as [|e]; [reflexivity|]. simpl. intros Hv.
  now apply no_lf_show_expr.
Qed.

Lemma toks_simple_cons (s : simple) :
  valid_simple s = true -> exists t ts, toks_simple s = t :: ts.
Proof.
  destruct s as [|e]; [now exists (TName "pass"), []|]. simpl. intros Hv.
  destruct (toks_expr_head e []) as [x [k' H]]. now exists (TName x), k'.
Qed.

Lemma lex_lines_app (a b : list string) (la lb : list line) :
  lex_lines a = Some la -> lex_lines b = Some lb ->
  lex_lines (app a b) = Some (app la lb).
Proof.
  revert la. induction a as [|l a IH]; intros la Ha Hb; simpl in *.
  - now injection Ha as <-.
  - destruct (lex l "") as [ts|]; [|discriminate].
    destruct (lex_lines a) as [la'|]; [|now destruct ts].
    rewrite (IH la' eq_refl Hb).
    destruct ts; now injection Ha as <-.
Qed.

Lemma lex_line_simple (indent : string) (k : nat) (s : simple) :
  valid_simple s = true ->
  lex indent "" = Some [] ->
  (forall r, indentation (indent ++ r) = k + indentation r) ->
  (forall r ts, lex r "" = Some ts -> lex (indent ++ r) "" = Some ts) ->
  lex_lines [indent ++ show_simple s] = Some [(k, toks_simple s)].
Proof.
  intros Hv _ Hind Hlex. cbn [lex_lines].
  rewrite (Hlex _ _ (lex_show_simple s Hv)).
  destruct (toks_simple_cons s Hv) as [t [ts ->]].
  now rewrite Hind, (indentation_show_simple s Hv), Nat.add_0_r.
Qed.

Lemma lex_lines_body (bs : list simple) :
  forallb valid_simple bs = true ->
  lex_lines (map (fun x => "    " ++ show_simple x) bs)
  = Some (map (fun b => (4, toks_simple b)) bs).
Proof.
  induction bs as [|b bs IH]; intros Hv; [reflexivity|].
  simpl in Hv. apply andb_true_iff in Hv as [Hb Hbs].
  change (map (fun x => "    " ++ show_simple x) (b :: bs))
    with (app ["    " ++ show_simple b]
            (map (fun x => "    " ++ show_simple x) bs)).
  change (map (fun b0 => (4, toks_simple b0)) (b :: bs))
    with (app [(4, toks_simple b)] (map (fun b0 => (4, toks_simple b0)) bs)).
  apply lex_lines_app; [|now apply IH].
  apply (lex_line_simple "    " 4 b Hb); [reflexivity|reflexivity|].
  intros r ts H. simpl. now rewrite H.
Qed.

Lemma lex_def_header (f : string) :
  valid_name f = true ->
  lex ("def " ++ f ++ "():") "" = Some (def_header f).
Proof.
  intros Hf.
  change ("def " ++ f ++ "():") with ("def" ++ String " " (f ++ "():")).
  apply lex_word; [reflexivity|reflexivity|].
  apply (lex_punct " " _ []); [reflexivity|reflexivity|].
  apply lex_word; [now apply valid_name_lexical|reflexivity|reflexivity].
Qed.

Lemma lex_lines_stmt (first : bool) (s : pstmt) :
  valid_stmt s = true ->
  lex_lines (stmt_strings first s) = Some (lines_of_stmt s).
Proof.
  destruct s as [s|f b bs]; intros Hv.
  - simpl in Hv. cbn [stmt_strings lines_of_stmt].
    apply (lex_line_simple "" 0 s Hv); [reflexivity|reflexivity|].
    intros r ts H. exact H.
  - simpl in Hv. apply andb_true_iff in Hv as [Hf Hbody].
    cbn [stmt_strings lines_of_stmt].
    change ((0, def_header f) :: map (fun b0 => (4, toks_simple b0)) (b :: bs))
      with (app [] (app [(0, def_header f)]
                      (map (fun b0 => (4, toks_simple b0)) (b :: bs)))).
    apply lex_lines_app; [now destruct first|].
    change (("def " ++ f ++ "():")
            :: map (fun x => "    " ++ show_simple x) (b :: bs))
      with (app ["def " ++ f ++ "():"]
              (map (fun x => "    " ++ show_simple x) (b :: bs))).
    apply lex_lines_app; [|now apply lex_lines_body].
    cbn [lex_lines]. now rewrite (lex_def_header f Hf).
Qed.

Lemma lex_lines_program (p : list pstmt) :
  valid_program p = true ->
  forall first : bool,
    lex_lines (program_strings first p) = Some (lines_of p).
Proof.
  induction p as [|s p IH]; intros Hv first; [reflexivity|].
  simpl in Hv. apply andb_true_iff in Hv as [Hs Hp].
  cbn [program_strings]. change (lines_of (s :: p))
    with (app (lines_of_stmt s) (lines_of p)).
  apply lex_lines_app; [now apply lex_lines_stmt|now apply IH].
Qed.

Lemma no_lf_stmt_strings (first : bool) (s : pstmt) :
  valid_stmt s = true -> forallb no_lf (stmt_strings first s) = true.
Proof.
  destruct s as [s|f b bs]; intros Hv.
  - simpl in Hv. simpl. now rewrite (no_lf_show_simple s Hv).
  - cbn [valid_stmt] in Hv. apply andb_true_iff in Hv as [Hf Hbody].
    cbn [stmt_strings]. rewrite forallb_app.
    assert (H1 : forallb no_lf (if first then [] else [""]) = true)
      by now destruct first.
    rewrite H1. cbn [forallb andb].
    assert (H2 : no_lf ("def " ++ f ++ "():") = true).
    { change ("def " ++ f ++ "():") with ("def " ++ (f ++ "():")).
      now rewrite !no_lf_app, (valid_name_no_lf f Hf). }
    rewrite H2. cbn [andb].
    apply forallb_forall. intros l Hl. apply in_map_iff in Hl as [x [<- Hx]].
    rewrite forallb_forall in Hbody.
    change ("    " ++ show_simple x) with ("    " ++ (show_simple x)).
    rewrite no_lf_app. now rewrite (no_lf_show_simple x (Hbody x Hx)).
Qed.

Lemma no_lf_program_strings (p : list pstmt) :
  valid_program p = true ->
  forall first : bool, forallb no_lf (program_strings first p) = true.
Proof.
  induction p as [|s p IH]; intros Hv first; [reflexivity|].
  simpl in Hv. apply andb_true_iff in Hv as [Hs Hp].
  cbn [program_strings]. rewrite forallb_app.
  now rewrite (no_lf_stmt_strings first s Hs), (IH Hp).
Qed.

Lemma length_lines_of (p : list pstmt) :
  List.length p <= List.length (lines_of p).
Proof.
  induction p as [|s p IH]; [reflexivity|].
  change (lines_of (s :: p)) with (app (lines_of_stmt s) (lines_of p)).
  rewrite length_app. destruct s; simpl in *; lia.
Qed.

Lemma parse_program_text (p : list pstmt) :
  valid_program p = true ->
  parse_program (lines_text true (program_strings true p)) = Some p.
Proof.
  intros Hv. unfold parse_program.
  assert (Hlex : lex_lines (split_lines
                   (lines_text true (program_strings true p)) "")
                 = Some (lines_of p)).
  { destruct (program_strings true p) as [|l ls] eqn:E.
    - destruct p as [|[s|f b bs] p]; [reflexivity|discriminate|discriminate].
    - rewrite split_lines_first.
      + rewrite <- E. now apply lex_lines_program.
      + rewrite <- E. now apply no_lf_program_strings. }
  rewrite Hlex. apply parse_stmts_lines; [exact Hv|apply length_lines_of].
Qed.

(** *** The round trip *)

(** With three frames for each node of the tree, the printer gives a text,
    and the text parses back to the tree. *)
Theorem round_trip (frames : nat) (code : string) (tree : node) :
  Fragment.parse code = Return tree ->
  count_nodes tree <= frames / 3 ->
  exists text : string,
    Fragment.unparse frames tree = Return text
    /\ Fragment.parse text = Return tree.
Proof.
  unfold Fragment.parse at 1.
  destruct (parse_program code) as [p|] eqn:Hp; [|discriminate].
  intros [= <-] Hfuel. exists (lines_text true (program_strings true p)).
  split; [now apply unparse_text|].
  unfold Fragment.parse.
  now rewrite (parse_program_text p (parse_program_valid code p Hp)).
Qed.

End FragmentRoundTrip.

(** * The claims *)

Section Claims.

Variable parse : string -> outcome node.
Variable unparse : node -> outcome string.
Variable frames : nat.

(** C2: for a valid source whose tree has no function definition with an empty
    body ([analyze_code] has no other rule), [analyze_code] returns exactly
    the text "No issues found". *)
Theorem C2_no_empty_body_no_issue (code : string) (tree : node) :
  parse code = Return tree ->
  no_empty_function tree = true ->
  analyze_code parse code = Return "No issues found".
Proof. apply analyze_code_no_issue. Qed.

(** C4: when [ast.parse] rejects the source with a [SyntaxError],
    [analyze_code] returns normally, and the text it returns is
    "Analysis error: " followed by the text of the exception. *)
Theorem C4_syntax_error_reported (code : string) (e : exn) :
  parse code = Raise e ->
  is_SyntaxError e = true ->
  analyze_code parse code = Return ("Analysis error: " ++ exn_str e)
  /\ prefix "Analysis error:" ("Analysis error: " ++ exn_str e) = true.
Proof.
  intros Hp He. split; [|reflexivity].
  unfold analyze_code, analyze_body. rewrite Hp. simpl.
  assert (Hex : is_Exception e = true).
  { unfold is_SyntaxError in He. unfold is_Exception.
    destruct (exn_cls e); (reflexivity || discriminate). }
  now rewrite Hex.
Qed.

(** C5: when parsing, the transformation loop or the regeneration of the text
    raises an exception of class [Exception], [refactor_code] returns
    normally the one text "Refactoring error: " followed by the text of the
    exception. *)
Theorem C5_refactor_failure_reported (code : string) (e : exn) :
  fails_internally parse unparse frames code e ->
  is_Exception e = true ->
  refactor_code parse unparse frames code
  = Return ("Refactoring error: " ++ exn_str e).
Proof.
  intros Hf He. unfold refactor_code, refactor_body.
  destruct Hf as [Hp|tree Hp Hloop|tree st Hp Hloop Hu].
  - rewrite Hp. simpl. now rewrite He.
  - rewrite Hp. simpl. rewrite Hloop. simpl. now rewrite He.
  - rewrite Hp. simpl. rewrite Hloop. simpl. rewrite Hu. simpl.
    now rewrite He.
Qed.

(** C6, amended: for a valid source without [print] call, the loop leaves
    its locals as they are, whatever the recursion limit, and [refactor_code]
    returns what [ast.unparse] makes of the parsed tree: the text it writes
    when it writes one, the report of its exception when it raises one.
    Whether a text that was written parses back to the tree is a matter of
    [ast.unparse] alone. *)
Theorem C6_no_print_returns_unparse (code : string) (tree : node) :
  parse code = Return tree ->
  well_formed tree = true ->
  existsb print_call (walk tree) = false ->
  for_each (walk tree) (refactor_step frames) (mkLocals tree None)
  = Return (mkLocals tree None)
  /\ refactor_code parse unparse frames code = refactor_report (unparse tree)
  /\ (forall text : string,
         unparse tree = Return text ->
         refactor_code parse unparse frames code = Return text)
  /\ (forall e : exn,
         unparse tree = Raise e -> is_Exception e = true ->
         refactor_code parse unparse frames code
         = Return ("Refactoring error: " ++ exn_str e)).
Proof.
  intros Hp Hwf Hnp.
  pose proof (refactor_loop_no_print frames (walk tree) (mkLocals tree None)
                Hwf Hnp) as Hl.
  pose proof (refactor_code_loop_returns parse unparse frames code tree _
                Hp Hl) as Hr.
  split; [exact Hl|]. split; [exact Hr|]. split.
  - intros text Hu. rewrite Hr, Hu. reflexivity.
  - intros e Hu He. rewrite Hr, Hu. unfold refactor_report. simpl.
    now rewrite He.
Qed.

(** C7: in a second run, on the text [text1] a first run returned, no call
    whose callee is [logging.info] passes the test of the loop, and each such
    call leaves the locals as they are.  The loop ends with [tree] being the
    tree parsed from [text1] and the result is what [ast.unparse] makes of
    that tree, unless the visit of line 32 runs out of frames on a call of
    [print], never on a call of [logging.info]; when every visit has its
    frames, the loop ends. *)
Theorem C7_second_run_keeps_logging_calls (code text1 : string) (tree1 : node) :
  refactor_code parse unparse frames code = Return text1 ->
  parse text1 = Return tree1 ->
  well_formed tree1 = true ->
  (forall n : node,
      In n (walk tree1) -> logging_info_callee n = true ->
      is_print_call n = Return false
      /\ forall st : locals, refactor_step frames st n = Return st)
  /\ match for_each (walk tree1) (refactor_step frames)
             (mkLocals tree1 None) with
     | Return st =>
         l_tree st = tree1
         /\ refactor_code parse unparse frames text1
            = refactor_report (unparse tree1)
     | Raise e =>
         exn_cls e = RecursionError
         /\ existsb print_call (walk tree1) = true
         /\ refactor_code parse unparse frames text1
            = Return ("Refactoring error: " ++ exn_str e)
     end
  /\ (visits_fit frames tree1 = true ->
      (exists st : locals,
          for_each (walk tree1) (refactor_step frames) (mkLocals tree1 None)
          = Return st
          /\ l_tree st = tree1)
      /\ refactor_code parse unparse frames text1
         = refactor_report (unparse tree1)).
Proof.
  intros _ Hp Hwf. split; [|split].
  - intros n Hn Hc.
    assert (Hf : fields_present n = true).
    { unfold well_formed in Hwf. rewrite forallb_forall in Hwf.
      now apply Hwf. }
    split.
    + rewrite (is_print_call_total n Hf).
      now rewrite (logging_info_not_print n).
    + intros st. apply refactor_step_skip; [exact Hf|].
      now apply logging_info_not_print.
  - destruct (for_each (walk tree1) (refactor_step frames)
                (mkLocals tree1 None)) as [st|e] eqn:Hl.
    + split.
      * exact (refactor_loop_keeps_tree frames _ _ _ Hl).
      * exact (refactor_code_loop_returns parse unparse frames text1 tree1
                 st Hp Hl).
    + destruct (refactor_loop_raises frames (walk tree1) Hwf _ e Hl)
        as [He Hex].
      split; [now rewrite He|]. split; [exact Hex|].
      exact (refactor_code_loop_raises parse unparse frames text1 tree1 e
               Hp Hl).
  - intros Hfit. split.
    + exact (refactor_loop_tree frames (walk tree1) (mkLocals tree1 None)
               Hwf Hfit).
    + now apply refactor_code_unparse.
Qed.

(** C8, amended: [analyze_code] visits every node of the tree exactly once, in
    breadth-first order (level by level, each level from left to right), and
    the findings come in the order of that visit. *)
Theorem C8_visit_breadth_first (tree : node) :
  well_formed tree = true ->
  walk tree = breadth_first tree
  /\ Permutation (walk tree) (preorder tree)
  /\ for_each (walk tree) analyze_step []
     = Return (flat_map findings (walk tree)).
Proof.
  intros Hwf. repeat split.
  - apply walk_breadth_first.
  - apply walk_preorder.
  - now rewrite (analyze_loop_findings (walk tree) [] Hwf).
Qed.

(** C9: the parser builds no function definition with an empty body, so for
    every valid source [analyze_code] returns exactly "No issues found": the
    branch that reports an empty function is never taken. *)
Theorem C9_always_no_issue
  (grammar : forall (c : string) (t : node),
      parse c = Return t -> no_empty_function t = true)
  (code : string) (tree : node) :
  parse code = Return tree ->
  analyze_code parse code = Return "No issues found"
  /\ for_each (walk tree) analyze_step [] = Return [].
Proof.
  intros Hp. split.
  - eapply analyze_code_no_issue; [exact Hp|]. now apply (grammar code).
  - apply analyze_loop_no_issue. now apply (grammar code).
Qed.


End Claims.

(** * Runs on concrete sources *)

(** C1: on the source [print(x, y)] the loop builds the node of
    [logging.info(x, y)], with the two arguments in order, and leaves it in
    the local [new_node]; the tree is the parsed one and the text returned
    is [print(x, y)], in which [logging.info] does not occur. *)
Theorem C1_print_call_left_as_it_is :
  exists st : locals,
    Fragment.parse "print(x, y)" = Return Examples.print_tree
    /\ for_each (walk Examples.print_tree)
         (refactor_step Examples.default_frames)
         (mkLocals Examples.print_tree None) = Return st
    /\ l_new_node st = Some Examples.logging_call
    /\ l_tree st = Examples.print_tree
    /\ refactor_code Fragment.parse
         (Fragment.unparse Examples.default_frames) Examples.default_frames
         "print(x, y)"
       = Return "print(x, y)"
    /\ contains "print(x, y)" "logging.info" = false.
Proof.
  eexists.
  split; [reflexivity|].
  split; [vm_compute; reflexivity|].
  split; [reflexivity|]. split; [reflexivity|].
  split; [vm_compute; reflexivity|reflexivity].
Qed.

Lemma C2_witness :
  Fragment.parse "def f(): pass" = Return Examples.pass_function_tree
  /\ no_empty_function Examples.pass_function_tree = true
  /\ analyze_code Fragment.parse "def f(): pass" = Return "No issues found".
Proof.
  split; [reflexivity|]. split; [reflexivity|].
  apply (C2_no_empty_body_no_issue Fragment.parse "def f(): pass"
           Examples.pass_function_tree); reflexivity.
Defined.

(** C3: on the source [def f(): pass], whose one function does nothing,
    [analyze_code] returns "No issues found" and not the line
    "Empty function found: f"; so it does when the body is on a line of its
    own. *)
Theorem C3_function_of_pass_not_reported :
  analyze_code Fragment.parse "def f(): pass" = Return "No issues found"
  /\ analyze_code Fragment.parse ("def f():" ++ nl ++ "    pass")
     = Return "No issues found".
Proof. split; reflexivity. Qed.

Lemma C4_witness :
  Fragment.parse "def f(: pass" = Raise Examples.invalid_syntax
  /\ is_SyntaxError Examples.invalid_syntax = true
  /\ analyze_code Fragment.parse "def f(: pass"
     = Return "Analysis error: invalid syntax"
  /\ prefix "Analysis error:" "Analysis error: invalid syntax" = true.
Proof.
  split; [reflexivity|]. split; [reflexivity|].
  apply (C4_syntax_error_reported Fragment.parse "def f(: pass"
           Examples.invalid_syntax); reflexivity.
Defined.

Lemma C5_witness :
  fails_internally Fragment.parse (Fragment.unparse Examples.default_frames)
    Examples.default_frames "print(" Examples.invalid_syntax
  /\ is_Exception Examples.invalid_syntax = true
  /\ refactor_code Fragment.parse (Fragment.unparse Examples.default_frames)
       Examples.default_frames "print("
     = Return "Refactoring error: invalid syntax".
Proof.
  split; [apply parse_fails; reflexivity|]. split; [reflexivity|].
  apply (C5_refactor_failure_reported Fragment.parse
           (Fragment.unparse Examples.default_frames)
           Examples.default_frames "print(" Examples.invalid_syntax);
    [apply parse_fails; reflexivity|reflexivity].
Defined.

(** C6, as stated, fails on the source [x.a.a...a] with 400 attribute
    accesses, which holds no call at all: the source parses, its tree is too
    deep for [ast.unparse] under the default recursion limit, and
    [refactor_code] returns the report of the [RecursionError], a text that
    does not parse to the tree of the source. *)
Lemma C6_counterexample :
  Fragment.parse Examples.deep_attribute
  = Return Examples.deep_attribute_tree
  /\ well_formed Examples.deep_attribute_tree = true
  /\ existsb print_call (walk Examples.deep_attribute_tree) = false
  /\ exists e : exn,
       Fragment.unparse Examples.default_frames Examples.deep_attribute_tree
       = Raise e
       /\ exn_cls e = RecursionError
       /\ refactor_code Fragment.parse
            (Fragment.unparse Examples.default_frames)
            Examples.default_frames Examples.deep_attribute
          = Return ("Refactoring error: " ++ exn_str e)
       /\ Fragment.parse ("Refactoring error: " ++ exn_str e)
          <> Return Examples.deep_attribute_tree.
Proof.
  split; [vm_compute; reflexivity|].
  split; [vm_compute; reflexivity|].
  split; [vm_compute; reflexivity|].
  exists recursion_error.
  split; [vm_compute; reflexivity|].
  split; [reflexivity|].
  split; [vm_compute; reflexivity|].
  intros H. vm_compute in H. discriminate H.
Qed.

Lemma C6_witness :
  Fragment.parse Examples.three_statements
  = Return Examples.three_statements_tree
  /\ well_formed Examples.three_statements_tree = true
  /\ existsb print_call (walk Examples.three_statements_tree) = false
  /\ Fragment.unparse Examples.default_frames Examples.three_statements_tree
     = Return Examples.three_statements_text
  /\ for_each (walk Examples.three_statements_tree)
       (refactor_step Examples.default_frames)
       (mkLocals Examples.three_statements_tree None)
     = Return (mkLocals Examples.three_statements_tree None)
  /\ refactor_code Fragment.parse (Fragment.unparse Examples.default_frames)
       Examples.default_frames Examples.three_statements
     = Return Examples.three_statements_text.
Proof.
  split; [reflexivity|]. split; [reflexivity|]. split; [reflexivity|].
  split; [vm_compute; reflexivity|].
  destruct (C6_no_print_returns_unparse Fragment.parse
              (Fragment.unparse Examples.default_frames)
              Examples.default_frames Examples.three_statements
              Examples.three_statements_tree eq_refl eq_refl eq_refl)
    as [Hl [_ [Ht _]]].
  split; [exact Hl|].
  apply Ht. vm_compute. reflexivity.
Defined.

Lemma C7_witness :
  refactor_code Fragment.parse (Fragment.unparse Examples.default_frames)
    Examples.default_frames "logging.info(x, y)"
  = Return "logging.info(x, y)"
  /\ Fragment.parse "logging.info(x, y)" = Return Examples.logging_tree
  /\ well_formed Examples.logging_tree = true
  /\ visits_fit Examples.default_frames Examples.logging_tree = true
  /\ (forall n : node,
         In n (walk Examples.logging_tree) -> logging_info_callee n = true ->
         is_print_call n = Return false
         /\ forall st : locals,
             refactor_step Examples.default_frames st n = Return st)
  /\ (exists st : locals,
         for_each (walk Examples.logging_tree)
           (refactor_step Examples.default_frames)
           (mkLocals Examples.logging_tree None) = Return st
         /\ l_tree st = Examples.logging_tree)
  /\ refactor_code Fragment.parse (Fragment.unparse Examples.default_frames)
       Examples.default_frames "logging.info(x, y)"
     = refactor_report
         (Fragment.unparse Examples.default_frames Examples.logging_tree).
Proof.
  assert (H1 : refactor_code Fragment.parse
                 (Fragment.unparse Examples.default_frames)
                 Examples.default_frames "logging.info(x, y)"
               = Return "logging.info(x, y)") by (vm_compute; reflexivity).
  assert (H2 : visits_fit Examples.default_frames Examples.logging_tree
               = true) by (vm_compute; reflexivity).
  split; [exact H1|]. split; [reflexivity|]. split; [reflexivity|].
  split; [exact H2|].
  destruct (C7_second_run_keeps_logging_calls Fragment.parse
              (Fragment.unparse Examples.default_frames)
              Examples.default_frames
              "logging.info(x, y)" "logging.info(x, y)" Examples.logging_tree
              H1 eq_refl eq_refl) as [Hcalls [_ Hfit]].
  split; [exact Hcalls|]. exact (Hfit H2).
Defined.

(** C8, as stated, fails on the source made of the two lines [f(x)] and [y]:
    [ast.walk] yields the second statement before the call of the first. *)
Lemma C8_counterexample :
  Fragment.parse Examples.two_lines = Return Examples.two_lines_tree
  /\ walk Examples.two_lines_tree <> preorder Examples.two_lines_tree
  /\ map node_cls (walk Examples.two_lines_tree)
     = ["Module"; "Expr"; "Expr"; "Call"; "Name"; "Name"; "Name"; "Load";
        "Load"; "Load"]
  /\ map node_cls (preorder Examples.two_lines_tree)
     = ["Module"; "Expr"; "Call"; "Name"; "Load"; "Name"; "Load"; "Expr";
        "Name"; "Load"].
Proof.
  split; [reflexivity|].
  split; [|split; reflexivity].
  intros H. apply (f_equal (map node_cls)) in H.
  vm_compute in H. discriminate H.
Qed.

Lemma C8_witness :
  well_formed Examples.two_lines_tree = true
  /\ walk Examples.two_lines_tree = breadth_first Examples.two_lines_tree
  /\ Permutation (walk Examples.two_lines_tree)
       (preorder Examples.two_lines_tree)
  /\ for_each (walk Examples.two_lines_tree) analyze_step []
     = Return (flat_map findings (walk Examples.two_lines_tree)).
Proof.
  split; [reflexivity|].
  apply (C8_visit_breadth_first Examples.two_lines_tree). reflexivity.
Defined.

Lemma C9_witness :
  (forall (c : string) (t : node),
      Fragment.parse c = Return t -> no_empty_function t = true)
  /\ Fragment.parse "def f(): pass" = Return Examples.pass_function_tree
  /\ analyze_code Fragment.parse "def f(): pass" = Return "No issues found"
  /\ for_each (walk Examples.pass_function_tree) analyze_step [] = Return [].
Proof.
  split; [exact FragmentFacts.parse_no_empty_function|].
  split; [reflexivity|].
  apply (C9_always_no_issue Fragment.parse
           FragmentFacts.parse_no_empty_function "def f(): pass"
           Examples.pass_function_tree).
  reflexivity.
Defined.



(** Where a tree has function definitions with an empty list for body, the
    findings come in the order of [ast.walk]: the function [c] of the first
    level before the function [b] nested in the first statement. *)
Lemma findings_follow_walk :
  well_formed Examples.empty_functions_tree = true
  /\ for_each (walk Examples.empty_functions_tree) analyze_step []
     = Return ["Empty function found: c"; "Empty function found: b"].
Proof. split; reflexivity. Qed.

(** * Further properties of the services *)

(** ** What the loops can raise, and what they leave *)

Lemma getattr_raises (n : node) (name : string) (e : exn) :
  getattr n name = Raise e -> exn_cls e = AttributeError.
Proof.
  unfold getattr. destruct (lookup name (node_fields n)); [discriminate|].
  now intros [= <-].
Qed.



Lemma is_print_call_raises (n : node) (e : exn) :
  is_print_call n = Raise e -> exn_cls e = AttributeError.
Proof.
  unfold is_print_call. destruct (isinstance n "Call"); [|discriminate].
  destruct (getattr n "func") as [func|e1] eqn:Hf; simpl.
  - destruct func as [| | | | |f]; try discriminate.
    destruct (isinstance f "Name"); [|discriminate].
    destruct (getattr f "id") as [id|e2] eqn:Hid; simpl; [discriminate|].
    intros [= <-]. now apply (getattr_raises f "id").
  - intros [= <-]. now apply (getattr_raises n "func").
Qed.

(** ** Errors never leave the services, except an interruption of the
    library *)



(** ** The text [analyze_code] returns *)

Lemma prefix_append (p x y : string) :
  prefix p x = true -> prefix p (x ++ y) = true.
Proof.
  revert x. induction p as [|a p IH]; intros x;
    [intros _; now destruct (x ++ y)|].
  destruct x as [|b x]; simpl; [discriminate|].
  destruct (ascii_dec a b); [apply IH|discriminate].
Qed.

Lemma join_prefix (p sep x : string) (rest : list string) :
  prefix p x = true -> prefix p (join sep (x :: rest)) = true.
Proof.
  intros H. destruct rest as [|y rest]; [exact H|].
  change (join sep (x :: y :: rest)) with (x ++ sep ++ join sep (y :: rest)).
  now apply prefix_append.
Qed.

Lemma analyze_step_issues (issues issues' : list string) (n : node) :
  analyze_step issues n = Return issues' ->
  Forall (fun msg => prefix "Empty function found: " msg = true) issues ->
  Forall (fun msg => prefix "Empty function found: " msg = true) issues'.
Proof.
  unfold analyze_step. destruct (isinstance n "FunctionDef");
    [|now intros [= <-]].
  destruct (getattr n "body") as [body|e]; simpl; [|discriminate].
  destruct (truthy body); simpl; [now intros [= <-]|].
  destruct (getattr n "name") as [name|e]; simpl; [|discriminate].
  intros [= <-] H. apply Forall_app. split; [exact H|].
  constructor; [|constructor].
  exact (prefix_append "Empty function found: " "Empty function found: "
           (py_str name) eq_refl).
Qed.

Lemma analyze_loop_issues (ns : list node) :
  forall issues issues' : list string,
    for_each ns analyze_step issues = Return issues' ->
    Forall (fun msg => prefix "Empty function found: " msg = true) issues ->
    Forall (fun msg => prefix "Empty function found: " msg = true) issues'.
Proof.
  induction ns as [|n ns IH]; intros issues issues'; simpl.
  - now intros [= <-].
  - destruct (analyze_step issues n) as [issues1|e] eqn:E; simpl;
      [|discriminate].
    intros H Hi. apply (IH issues1 issues' H).
    now apply (analyze_step_issues issues issues1 n).
Qed.

(** X3: every text [analyze_code] returns is "No issues found", or starts
    with "Empty function found: ", or starts with "Analysis error: ". *)
Theorem analyze_code_result_shape
  (parse : string -> outcome node) (code s : string) :
  analyze_code parse code = Return s ->
  s = "No issues found"
  \/ prefix "Empty function found: " s = true
  \/ prefix "Analysis error: " s = true.
Proof.
  unfold analyze_code, analyze_body.
  destruct (parse code) as [tree|e] eqn:Hp; simpl.
  - destruct (for_each (walk tree) analyze_step []) as [issues|e] eqn:Hl; simpl.
    + intros [= <-]. destruct issues as [|x rest]; [now left|].
      right. left.
      pose proof (analyze_loop_issues _ _ _ Hl (Forall_nil _)) as H.
      inversion H as [|x' rest' Hx Hrest]; subst.
      now apply join_prefix.
    + destruct (is_Exception e); [|discriminate].
      intros [= <-]. right. right.
      exact (prefix_append "Analysis error: " "Analysis error: "
               (exn_str e) eq_refl).
  - destruct (is_Exception e); [|discriminate].
    intros [= <-]. right. right.
    exact (prefix_append "Analysis error: " "Analysis error: "
             (exn_str e) eq_refl).
Qed.

Lemma analyze_code_result_shape_witness :
  analyze_code Fragment.parse "def f(: pass"
  = Return "Analysis error: invalid syntax"
  /\ ("Analysis error: invalid syntax" = "No issues found"
      \/ prefix "Empty function found: " "Analysis error: invalid syntax" = true
      \/ prefix "Analysis error: " "Analysis error: invalid syntax" = true).
Proof.
  split; [reflexivity|].
  apply (analyze_code_result_shape Fragment.parse "def f(: pass"
           "Analysis error: invalid syntax").
  reflexivity.
Defined.



(** ** The node [refactor_code] builds *)

(** X5: for a call of the bare name [print] that carries its fields, the
    iteration builds a call of [logging.info] with the argument list of the
    [print] call as it is and with no keyword; that node passes for a
    [logging.info] call and not for a [print] call, so the test of the loop
    does not match what the loop builds.  An iteration that returns has
    stored that node in [new_node] and left [tree]; an iteration that raises
    raises [RecursionError], the frames being fewer than two for each level
    of the node; with that many frames the iteration returns. *)
Theorem refactor_step_builds_logging_call
  (frames : nat) (st : locals) (n : node) (args : value) :
  fields_present n = true ->
  print_call n = true ->
  lookup "args" (node_fields n) = Some args ->
  match refactor_step frames st n with
  | Return st' =>
      st' = mkLocals (l_tree st) (Some (logging_info_call args))
  | Raise e =>
      exn_cls e = RecursionError
      /\ frames < 2 * height (logging_info_call args)
  end
  /\ (2 * height (logging_info_call args) <= frames ->
      refactor_step frames st n
      = Return (mkLocals (l_tree st) (Some (logging_info_call args))))
  /\ lookup "args" (node_fields (logging_info_call args)) = Some args
  /\ lookup "keywords" (node_fields (logging_info_call args)) = Some (VList [])
  /\ logging_info_callee (logging_info_call args) = true
  /\ is_print_call (logging_info_call args) = Return false.
Proof.
  intros Hf Hp Ha. split; [|split; [|repeat split; reflexivity]].
  - destruct (refactor_step frames st n) as [st'|e] eqn:E.
    + exact (refactor_step_print_returns frames st st' n args Hf Hp Ha E).
    + destruct (refactor_step_raises_print frames st n e Hf E) as [-> _].
      split; [reflexivity|].
      destruct (Nat.le_gt_cases (2 * height (logging_info_call args)) frames)
        as [Hle|Hgt]; [|exact Hgt].
      rewrite (refactor_step_print frames st n args Hf Hp Ha Hle) in E.
      discriminate E.
  - exact (refactor_step_print frames st n args Hf Hp Ha).
Qed.

Lemma refactor_step_builds_logging_call_witness :
  fields_present
    (Fragment.embed_expr
       (Fragment.PCall (Fragment.PName "print")
          [Fragment.PName "x"; Fragment.PName "y"])) = true
  /\ 2 * height Examples.logging_call <= Examples.default_frames
  /\ refactor_step Examples.default_frames
       (mkLocals Examples.print_tree None)
       (Fragment.embed_expr
          (Fragment.PCall (Fragment.PName "print")
             [Fragment.PName "x"; Fragment.PName "y"]))
     = Return (mkLocals Examples.print_tree (Some Examples.logging_call)).
Proof.
  split; [reflexivity|].
  assert (H : 2 * height Examples.logging_call <= Examples.default_frames)
    by (apply Nat.leb_le; vm_compute; reflexivity).
  split; [exact H|].
  destruct (refactor_step_builds_logging_call Examples.default_frames
              (mkLocals Examples.print_tree None)
              (Fragment.embed_expr
                 (Fragment.PCall (Fragment.PName "print")
                    [Fragment.PName "x"; Fragment.PName "y"]))
              (VList [VNode (Fragment.embed_expr (Fragment.PName "x"));
                      VNode (Fragment.embed_expr (Fragment.PName "y"))])
              eq_refl eq_refl eq_refl) as [_ [Hfit _]].
  exact (Hfit H).
Defined.

Lemma refactor_loop_new_node (frames : nat) (ns : list node) :
  forall st st' : locals,
    forallb fields_present ns = true ->
    for_each ns (refactor_step frames) st = Return st' ->
    (l_new_node st' = None
     <-> l_new_node st = None /\ existsb print_call ns = false).
Proof.
  induction ns as [|n ns IH]; intros st st' Hwf; simpl in *.
  - intros [= <-]. split; [now split|now intros [H _]].
  - apply andb_true_iff in Hwf as [Hn Hns].
    destruct (refactor_step frames st n) as [st1|e] eqn:E; simpl;
      [|discriminate].
    intros H. rewrite (IH _ _ Hns H).
    destruct (print_call n) eqn:Hp; simpl.
    + destruct (print_call_has_args n Hn Hp) as [args Ha].
      rewrite (refactor_step_print_returns frames st st1 n args Hn Hp Ha E).
      simpl. split; [now intros [H1 _]|now intros [_ H2]].
    + rewrite (refactor_step_skip frames st n Hn Hp) in E.
      now injection E as <-.
Qed.

Lemma no_print_call_walk (tree : node) :
  existsb print_call (walk tree) = false
  <-> forall n : node, In n (preorder tree) -> print_call n = false.
Proof.
  split.
  - intros H n Hn.
    apply (Permutation_in _ (Permutation_sym (walk_preorder tree))) in Hn.
    destruct (print_call n) eqn:Hp; [|reflexivity].
    assert (Hex : existsb print_call (walk tree) = true)
      by (apply existsb_exists; now exists n).
    congruence.
  - intros H.
    destruct (existsb print_call (walk tree)) eqn:Hex; [|reflexivity].
    apply existsb_exists in Hex as [n [Hn Hp]].
    apply (Permutation_in _ (walk_preorder tree)) in Hn.
    rewrite (H n Hn) in Hp. discriminate.
Qed.

(** X6: on a tree whose nodes carry their fields, a loop of [refactor_code]
    that ends has [tree] still the parsed tree, and [new_node] unset exactly
    when no node of the tree is a call of the bare name [print]; a loop that
    raises raises [RecursionError], and the tree holds a call of [print].
    When the visit of every node built has its frames, the loop ends. *)
Theorem refactor_loop_finds_print_calls (frames : nat) (tree : node) :
  well_formed tree = true ->
  match for_each (walk tree) (refactor_step frames) (mkLocals tree None) with
  | Return st =>
      l_tree st = tree
      /\ (l_new_node st = None
          <-> forall n : node, In n (preorder tree) -> print_call n = false)
  | Raise e =>
      exn_cls e = RecursionError
      /\ exists n : node, In n (preorder tree) /\ print_call n = true
  end
  /\ (visits_fit frames tree = true ->
      exists st : locals,
        for_each (walk tree) (refactor_step frames) (mkLocals tree None)
        = Return st).
Proof.
  intros Hwf. split.
  - destruct (for_each (walk tree) (refactor_step frames)
                (mkLocals tree None)) as [st|e] eqn:Hl.
    + split; [exact (refactor_loop_keeps_tree frames _ _ _ Hl)|].
      rewrite (refactor_loop_new_node frames (walk tree) _ st Hwf Hl).
      rewrite <- no_print_call_walk. simpl.
      split; [now intros [_ H]|now split].
    + destruct (refactor_loop_raises frames (walk tree) Hwf _ e Hl)
        as [-> Hex].
      split; [reflexivity|].
      apply existsb_exists in Hex as [n [Hn Hp]].
      exists n. split; [|exact Hp].
      now apply (Permutation_in _ (walk_preorder tree)).
  - intros Hfit.
    destruct (refactor_loop_tree frames (walk tree) (mkLocals tree None)
                Hwf Hfit) as [st [E _]].
    now exists st.
Qed.

Lemma refactor_loop_finds_print_calls_witness :
  well_formed Examples.print_tree = true
  /\ visits_fit Examples.default_frames Examples.print_tree = true
  /\ exists st : locals,
       for_each (walk Examples.print_tree)
         (refactor_step Examples.default_frames)
         (mkLocals Examples.print_tree None) = Return st.
Proof.
  assert (H : visits_fit Examples.default_frames Examples.print_tree = true)
    by (vm_compute; reflexivity).
  split; [reflexivity|]. split; [exact H|].
  destruct (refactor_loop_finds_print_calls Examples.default_frames
              Examples.print_tree eq_refl) as [_ Hfit].
  exact (Hfit H).
Defined.

(** ** Calls on one object *)

Lemma run_stateless {O : Type}
  (method : O -> Lifecycle.call -> O * outcome value) (self : O) :
  (forall c : Lifecycle.call, fst (method self c) = self) ->
  forall calls : list Lifecycle.call,
    Lifecycle.run method self calls
    = (self, map (Lifecycle.fresh_result method self) calls).
Proof.
  intros Hm. induction calls as [|c calls IH]; [reflexivity|].
  cbn [Lifecycle.run map]. specialize (Hm c).
  unfold Lifecycle.fresh_result at 1.
  destruct (method self c) as [self1 r]. simpl in Hm. subst self1.
  now rewrite IH.
Qed.

(** X9: whatever calls of [initialize], [analyze_code] (or [refactor_code])
    and [shutdown] are made on one object, in any number and order, the
    object stays as [__init__] built it ([analyzers] is the empty list) and
    each call gives what it gives on a new object: no call needs
    [initialize] before it, and none is changed by a [shutdown] before it. *)
Theorem calls_leave_the_object
  (parse : string -> outcome node) (unparse : node -> outcome string)
  (frames : nat) (calls : list Lifecycle.call) :
  Lifecycle.run (Lifecycle.Analyzer_call parse) Lifecycle.Analyzer_init calls
  = (Lifecycle.mkAnalyzer [],
     map (Lifecycle.fresh_result (Lifecycle.Analyzer_call parse)
            Lifecycle.Analyzer_init) calls)
  /\ Lifecycle.run (Lifecycle.RefactorEngine_call parse unparse frames)
       Lifecycle.RefactorEngine_init calls
     = (Lifecycle.mkRefactorEngine,
        map (Lifecycle.fresh_result
               (Lifecycle.RefactorEngine_call parse unparse frames)
               Lifecycle.RefactorEngine_init) calls).
Proof.
  split; apply run_stateless; intros [|code|]; reflexivity.
Qed.
